(** * Graph layout preparation of the [KnowledgeGraph] component

    A shallow embedding of the [useMemo] callback of
    [frontend/app/components/KnowledgeGraph.tsx] (lines 43-97): node and
    edge normalization, connected-component labelling by an explicit-stack
    depth-first search, and injection of synthetic connector edges. Of the
    rendering effect of the same component it covers the cluster centres
    and the click handler, the latter with the two handlers of [Home] in
    [frontend/app/page.tsx].

    Conventions of the embedding:
    - a JavaScript string that may be [undefined] is an [option string];
    - a JavaScript number is an IEEE 754 binary64 value, modelled by the
      primitive floats: arithmetic rounds as in the program, and [NaN],
      the two zeros and the infinities are values;
    - [Set<string>] is a [gset], [Map<K, V>] is a [gmap];
    - a JavaScript array is a list; the DFS [stack] array is kept with its
      last element first, so [push] is [cons] and [pop] takes the head;
    - a [TypeError] raised by dereferencing [undefined] and the exhaustion
      of the loop budget of the [while] loop are explicit outcomes. *)

From Stdlib Require Import Floats.
From stdpp Require Import gmap strings list sorting relations.

(** ** JavaScript values *)

(** A string-valued property that may be missing. *)
Abbreviation jsid := (option string).

(** A JavaScript number. *)
Abbreviation number := float.

(** [x ?? d]: the nullish coalescing operator. *)
Definition nullish {A : Type} (x : option A) (d : A) : A :=
  match x with
  | Some v => v
  | None => d
  end.

Infix "??" := nullish (at level 45, left associativity).

(** The numbers that are falsy: [+0], [-0] and [NaN]. *)
Definition falsy_number (x : number) : bool := is_zero x || is_nan x.

(** [x || d] on a possibly missing number: [undefined] and the falsy numbers
    give [d]. *)
Definition or_number (x : option number) (d : number) : number :=
  match x with
  | Some q => if falsy_number q then d else q
  | None => d
  end.

(** [Math.max(a, b)] on two numbers: [NaN] if either is [NaN], otherwise the
    larger, [+0] counting as larger than [-0]. *)
Definition Math_max (a b : number) : number :=
  if is_nan a || is_nan b then nan
  else if (a <? b)%float then b
  else if (b <? a)%float then a
  else match classify a with
       | NZero => b
       | _ => a
       end.

(** Truthiness of a possibly missing string: [undefined] and the empty
    string are falsy. *)
Definition truthy (a : jsid) : bool :=
  match a with
  | Some s => negb (String.eqb s EmptyString)
  | None => false
  end.

(** ** Outcomes of a computation that may throw *)

Inductive error : Type :=
  | TypeError
  | OutOfFuel.

Inductive outcome (A : Type) : Type :=
  | Return (a : A)
  | Throw (e : error).

Arguments Return {A} a.
Arguments Throw {A} e.

#[global] Instance outcome_bind : MBind outcome :=
  λ A B f m, match m with
             | Return a => f a
             | Throw e => Throw e
             end.

#[global] Instance outcome_ret : MRet outcome := λ A a, Return a.

(** ** Data model *)

(** A raw node of the API payload. The declared type makes [id] and [label]
    strings, but the code reads every field defensively. *)
Module RawNode.
Record t : Type := mk {
  id : jsid;
  label : option string;
  size : option number;
  importance : option number;
  frequency : option number;
  degree : option number
}.
End RawNode.

(** [D3Node] as built by the mapping callback; [component] is written later
    by the labelling loop. *)
Module D3Node.
Record t : Type := mk {
  id : jsid;
  label : jsid;
  importance : number;
  frequency : number;
  degree : number;
  component : option nat
}.

Definition with_component (c : nat) (n : t) : t :=
  mk (id n) (label n) (importance n) (frequency n) (degree n) (Some c).
End D3Node.

Module D3Edge.
Record t : Type := mk {
  source : jsid;
  target : jsid;
  weight : option number;
  co_occurrence_count : option number
}.
End D3Edge.

(** [data.graph] *)
Module Graph.
Record t : Type := mk {
  nodes : option (list RawNode.t);
  edges : option (list D3Edge.t)
}.
End Graph.

(** The [data] prop; [top_entities] is not read by the callback. *)
Module Data.
Record t : Type := mk {
  graph : option Graph.t
}.
End Data.

(** The object returned by the callback. *)
Module Output.
Record t : Type := mk {
  nodes : list D3Node.t;
  edges : list D3Edge.t
}.
End Output.

(** ** Normalization (lines 44-53) *)

(** [data?.graph?.nodes || []] *)
Definition raw_nodes (data : option Data.t) : list RawNode.t :=
  ((data ≫= Data.graph) ≫= Graph.nodes) ?? [].

(** [data?.graph?.edges || []] *)
Definition raw_edges (data : option Data.t) : list D3Edge.t :=
  ((data ≫= Data.graph) ≫= Graph.edges) ?? [].

(** The mapping callback of lines 44-50. *)
Definition normalize_node (n : RawNode.t) : D3Node.t :=
  {| D3Node.id := RawNode.id n;
     D3Node.label :=
       match RawNode.label n with
       | Some l => Some l
       | None => RawNode.id n
       end;
     D3Node.importance :=
       RawNode.importance n
         ?? (Math_max (or_number (RawNode.size n) 1) 1 / 5)%float;
     D3Node.frequency := RawNode.frequency n ?? 0%float;
     D3Node.degree := RawNode.degree n ?? 0%float;
     D3Node.component := None |}.

Definition nodesIn (data : option Data.t) : list D3Node.t :=
  normalize_node <$> raw_nodes data.

Definition nodeIdSet (ns : list D3Node.t) : gset jsid :=
  list_to_set (D3Node.id <$> ns).

Definition edgesIn (data : option Data.t) (ns : list D3Node.t)
  : list D3Edge.t :=
  filter (λ e, D3Edge.source e ∈ nodeIdSet ns ∧ D3Edge.target e ∈ nodeIdSet ns)
         (raw_edges data).

(** ** Component labelling (lines 55-80) *)

(** [adj.get(k)!.push(v)] *)
Definition adj_push (k v : jsid) (adj : gmap jsid (list jsid))
  : outcome (gmap jsid (list jsid)) :=
  match adj !! k with
  | Some l => Return (<[k := l ++ [v]]> adj)
  | None => Throw TypeError
  end.

(** [nodesIn.forEach((n) => adj.set(n.id, []))] *)
Definition adj_init (ns : list D3Node.t) : gmap jsid (list jsid) :=
  foldl (λ adj n, <[D3Node.id n := []]> adj) ∅ ns.

(** The [edgesIn.forEach] of lines 58-61. *)
Fixpoint adj_edges (es : list D3Edge.t) (adj : gmap jsid (list jsid))
  : outcome (gmap jsid (list jsid)) :=
  match es with
  | [] => Return adj
  | e :: es' =>
      adj1 ← adj_push (D3Edge.source e) (D3Edge.target e) adj;
      adj2 ← adj_push (D3Edge.target e) (D3Edge.source e) adj1;
      adj_edges es' adj2
  end.

Definition build_adj (ns : list D3Node.t) (es : list D3Edge.t)
  : outcome (gmap jsid (list jsid)) :=
  adj_edges es (adj_init ns).

(** [nodesIn.find((x) => x.id === cur)!.component = comp]: the first node
    with that id is updated in place; no such node is a [TypeError]. *)
Fixpoint set_component (cur : jsid) (comp : nat) (ns : list D3Node.t)
  : outcome (list D3Node.t) :=
  match ns with
  | [] => Throw TypeError
  | x :: rest =>
      if decide (D3Node.id x = cur)
      then Return (D3Node.with_component comp x :: rest)
      else rest' ← set_component cur comp rest; Return (x :: rest')
  end.

(** The [for (const nb of adj.get(cur) || [])] loop of lines 73-78. *)
Definition visit_neighbours (nbs : list jsid) (vs : gset jsid * list jsid)
  : gset jsid * list jsid :=
  foldl (λ '(visited, stack) nb,
           if decide (nb ∈ visited) then (visited, stack)
           else ({[nb]} ∪ visited, nb :: stack))
        vs nbs.

(** The [while (stack.length)] loop of lines 69-79, with a loop budget. *)
Fixpoint while_stack (fuel : nat) (adj : gmap jsid (list jsid)) (comp : nat)
    (ns : list D3Node.t) (visited : gset jsid) (stack : list jsid)
  : outcome (list D3Node.t * gset jsid) :=
  match stack with
  | [] => Return (ns, visited)
  | cur :: stack' =>
      match fuel with
      | 0 => Throw OutOfFuel
      | S fuel' =>
          ns' ← set_component cur comp ns;
          let '(visited', stack'') :=
            visit_neighbours (adj !! cur ?? []) (visited, stack') in
          while_stack fuel' adj comp ns' visited' stack''
      end
  end.

(** The [for (const n of nodesIn)] loop of lines 64-80; [todo] are the ids
    of the nodes still to be reached by the iteration. *)
Fixpoint for_nodes (fuel : nat) (adj : gmap jsid (list jsid))
    (todo : list jsid) (ns : list D3Node.t) (visited : gset jsid) (comp : nat)
  : outcome (list D3Node.t * gset jsid * nat) :=
  match todo with
  | [] => Return (ns, visited, comp)
  | nid :: todo' =>
      if decide (nid ∈ visited) then for_nodes fuel adj todo' ns visited comp
      else
        '(ns', visited') ←
          while_stack fuel adj (S comp) ns ({[nid]} ∪ visited) [nid];
        for_nodes fuel adj todo' ns' visited' (S comp)
  end.

(** Each [while] loop pops every id at most once, so a budget of one
    iteration per node is never exhausted (lemma [label_components_total]). *)
Definition label_components (adj : gmap jsid (list jsid)) (ns : list D3Node.t)
  : outcome (list D3Node.t * gset jsid * nat) :=
  for_nodes (length ns) adj (D3Node.id <$> ns) ns ∅ 0.

(** ** Connector injection (lines 82-94) *)

(** [n.component || 0] *)
Definition comp_or_0 (n : D3Node.t) : nat :=
  match D3Node.component n with
  | Some c => c
  | None => 0
  end.

(** [Array.from(new Set(l))]: the distinct values in order of first
    occurrence. *)
Definition set_order (l : list nat) : list nat :=
  foldl (λ acc x, if decide (x ∈ acc) then acc else acc ++ [x]) [] l.

(** [.sort((a, b) => a - b)] *)
Definition sort_ascending (l : list nat) : list nat := merge_sort (≤) l.

Definition comps (ns : list D3Node.t) : list nat :=
  sort_ascending (set_order (comp_or_0 <$> ns)).

(** [nodesIn.find((n) => (n.component || 0) === c)] *)
Definition find_rep (ns : list D3Node.t) (c : nat) : option D3Node.t :=
  snd <$> list_find (λ n, comp_or_0 n = c) ns.

Definition representativeByComp (ns : list D3Node.t) (cs : list nat)
  : gmap nat jsid :=
  foldl (λ reps c,
           match find_rep ns c with
           | Some rep => <[c := D3Node.id rep]> reps
           | None => reps
           end)
        ∅ cs.

(** [representativeByComp.get(comps[i])] *)
Definition rep_at (reps : gmap nat jsid) (cs : list nat) (i : nat) : jsid :=
  mjoin (cs !! i ≫= (reps !!.)).

Definition synthetic (a b : jsid) : D3Edge.t :=
  {| D3Edge.source := a;
     D3Edge.target := b;
     D3Edge.weight := Some 0.1%float;
     D3Edge.co_occurrence_count := None |}.

(** The loop of lines 90-94. *)
Definition syntheticEdges (reps : gmap nat jsid) (cs : list nat)
  : list D3Edge.t :=
  flat_map (λ i,
              let a := rep_at reps cs i in
              let b := rep_at reps cs (i + 1) in
              if truthy a && truthy b then [synthetic a b] else [])
           (seq 0 (length cs - 1)).

(** ** The memoized callback *)

Definition KnowledgeGraph (data : option Data.t) : outcome Output.t :=
  let ns := nodesIn data in
  let es := edgesIn data ns in
  adj ← build_adj ns es;
  '(ns', _, _) ← label_components adj ns;
  let cs := comps ns' in
  let reps := representativeByComp ns' cs in
  Return {| Output.nodes := ns';
            Output.edges := es ++ syntheticEdges reps cs |}.

(** ** Sample payloads *)

Definition raw (i : string) : RawNode.t :=
  RawNode.mk (Some i) None None None None None.

Definition edge (s t : string) (w : number) : D3Edge.t :=
  D3Edge.mk (Some s) (Some t) (Some w) None.

Definition payload (ns : list RawNode.t) (es : list D3Edge.t)
  : option Data.t :=
  Some (Data.mk (Some (Graph.mk (Some ns) (Some es)))).


(** Scenario 1 of the specification: two disjoint pairs. *)
Definition sample_two_pairs : option Data.t :=
  payload [raw "A"; raw "B"; raw "C"; raw "D"]
          [edge "A" "B" 2%float; edge "C" "D" 1%float].

(** The same payload with its nodes and its edges reordered. *)
Definition sample_two_pairs_permuted : option Data.t :=
  payload [raw "B"; raw "A"; raw "C"; raw "D"]
          [edge "C" "D" 1%float; edge "A" "B" 2%float].

(** Two isolated nodes, the first with the empty string as its id. *)
Definition sample_empty_id : option Data.t :=
  payload [raw EmptyString; raw "B"] [].

(** A single node that is the empty object: no [id], no other field. *)
Definition sample_missing_id : option Data.t :=
  payload [RawNode.mk None None None None None None] [].

(** ** Normalization as a step of its own *)

(** The two values computed by lines 44-53. *)
Definition normalize (data : option Data.t)
  : list D3Node.t * list D3Edge.t :=
  let ns := nodesIn data in (ns, edgesIn data ns).

(** A canonical node read back as a raw node: the object has no [size]. *)
Definition as_raw (n : D3Node.t) : RawNode.t :=
  {| RawNode.id := D3Node.id n;
     RawNode.label := D3Node.label n;
     RawNode.size := None;
     RawNode.importance := Some (D3Node.importance n);
     RawNode.frequency := Some (D3Node.frequency n);
     RawNode.degree := Some (D3Node.degree n) |}.

(** The output of [normalize] handed in again as a payload. *)
Definition as_data (out : list D3Node.t * list D3Edge.t) : option Data.t :=
  payload (as_raw <$> out.1) out.2.

(** ** Graph notions used by the statements *)

(** [a] and [b] are the source and the target of an edge of [es]. *)
Definition edge_rel (es : list D3Edge.t) (a b : jsid) : Prop :=
  ∃ e, e ∈ es ∧ D3Edge.source e = a ∧ D3Edge.target e = b.

(** Joined by an undirected path of edges of [es]. *)
Definition connected (es : list D3Edge.t) : relation jsid :=
  rtsc (edge_rel es).

(** [b] is on the adjacency list of [a]. *)
Definition nbr (adj : gmap jsid (list jsid)) (a b : jsid) : Prop :=
  ∃ l, adj !! a = Some l ∧ b ∈ l.

(** The [component] of the node that [find] returns for id [k]. *)
Fixpoint comp_of (ns : list D3Node.t) (k : jsid) : option nat :=
  match ns with
  | [] => None
  | x :: rest =>
      if decide (D3Node.id x = k) then D3Node.component x else comp_of rest k
  end.

(** ** The rendering effect (lines 99-237) *)

(** The cluster ids of line 130, in order of first occurrence. *)
Definition cluster_comps (ns : list D3Node.t) : list nat :=
  set_order (comp_or_0 <$> ns).

Section cluster_centers.

(** Screen coordinates are floating-point numbers; [circle_x i m] stands
    for [width / 2 + r * Math.cos((2 * Math.PI * i) / m)] and [circle_y i m]
    for [height / 2 + r * Math.sin((2 * Math.PI * i) / m)]. *)
Context {coord : Type} (circle_x circle_y : nat → nat → coord).

(** The [centers] map of lines 132-136. *)
Definition centers (ns : list D3Node.t) : gmap nat (coord * coord) :=
  let cs := cluster_comps ns in
  let m := Nat.max (length cs) 1 in
  foldl (λ acc '(c, p), <[c := p]> acc) ∅
        (imap (λ i c, (c, (circle_x i m, circle_y i m))) cs).

(** [centers.get(d.component || 0)?.x ?? width / 2] (line 154) *)
Definition clusterX (ns : list D3Node.t) (half_width : coord) (d : D3Node.t)
  : coord :=
  (fst <$> centers ns !! comp_or_0 d) ?? half_width.

(** [centers.get(d.component || 0)?.y ?? height / 2] (line 158) *)
Definition clusterY (ns : list D3Node.t) (half_height : coord) (d : D3Node.t)
  : coord :=
  (snd <$> centers ns !! comp_or_0 d) ?? half_height.

End cluster_centers.

(** ** Selecting an entity (lines 180-187, and [Home] in [app/page.tsx]) *)

(** The [selectedEntity] state of [Home]: [null], or the id last handed to
    [handleEntitySelect]. *)
Inductive selection : Type :=
  | sel_null
  | sel_id (i : jsid).

#[global] Instance selection_eq_dec : EqDecision selection.
Proof. solve_decision. Defined.

(** The part of the state of [Home] that the two handlers write. *)
Record HomeState (details : Type) : Type := mkHomeState {
  selectedEntity : selection;
  entityDetails : option details
}.

Arguments mkHomeState {details} _ _.
Arguments selectedEntity {details} _.
Arguments entityDetails {details} _.

(** [handleEntitySelect] of [app/page.tsx] (lines 96-98). *)
Definition handleEntitySelect {details : Type} (entityName : jsid)
    (s : HomeState details) : HomeState details :=
  mkHomeState (sel_id entityName) (entityDetails s).

(** [handleEntityDeselect] of [app/page.tsx] (lines 100-103). *)
Definition handleEntityDeselect {details : Type} (s : HomeState details)
  : HomeState details :=
  mkHomeState sel_null None.

(** The click handler of lines 184-187, with the [selectedEntity] prop and
    the two callbacks as [Home] passes them. *)
Definition on_click {details : Type} (d : D3Node.t) (s : HomeState details)
  : HomeState details :=
  if decide (selectedEntity s = sel_id (D3Node.id d))
  then handleEntityDeselect s
  else handleEntitySelect (D3Node.id d) s.

(** The fill colour of lines 180 and 245. *)
Definition fill (selected : selection) (d : D3Node.t) : string :=
  if decide (selected = sel_id (D3Node.id d)) then "#ef4444" else "#3b82f6".

(** Component ids met along the node list, for a counter that stands at
    [c] before the list and at [c'] after it: each id is either one already
    handed out or the next value of the counter. *)
Inductive climbs : nat → list nat → nat → Prop :=
  | climbs_nil c : climbs c [] c
  | climbs_old c x l c' : 1 ≤ x ≤ c → climbs c l c' → climbs c (x :: l) c'
  | climbs_new c l c' : climbs (S c) l c' → climbs c (S c :: l) c'.

(** ** Notions used by the statements and the proofs *)

(** What the mapping callback establishes: no [component] yet, and a
    missing [label] only together with a missing [id]. *)
Definition fresh (n : D3Node.t) : Prop :=
  D3Node.component n = None ∧ (D3Node.label n = None → D3Node.id n = None).

(** A node with its [component] removed. *)
Definition without_component (n : D3Node.t) : D3Node.t :=
  D3Node.mk (D3Node.id n) (D3Node.label n) (D3Node.importance n)
            (D3Node.frequency n) (D3Node.degree n) None.

(** [ns'] is [ns] with some components written, and none written to a node
    whose id already occurs before it in the list. *)
Definition writes_first (ns ns' : list D3Node.t) : Prop :=
  without_component <$> ns' = without_component <$> ns
  ∧ ∀ i n, ns !! i = Some n →
           D3Node.id n ∈ D3Node.id <$> take i ns → ns' !! i = Some n.

(** [m] is the larger of [a] and [b], in the order of the doubles. *)
Definition is_max (a b m : number) : Prop :=
  (a <=? m)%float = true ∧ (b <=? m)%float = true ∧ (m = a ∨ m = b).

(** The retained edges, read off the raw payload: both endpoints are ids of
    raw nodes. *)
Definition retained (data : option Data.t) : list D3Edge.t :=
  filter (λ e, D3Edge.source e ∈ RawNode.id <$> raw_nodes data
               ∧ D3Edge.target e ∈ RawNode.id <$> raw_nodes data)
         (raw_edges data).

(** ** Invariants of the labelling loops *)

Section invariants.

Context (adj : gmap jsid (list jsid)) (U : gset jsid).

(** Invariant of the [while] loop that labels component [c] from root [r];
    [V0] and [N0] are the visited set and the nodes when the loop starts. *)
Record dfs_inv (V0 : gset jsid) (N0 : list D3Node.t) (r : jsid) (c : nat)
    (ns : list D3Node.t) (visited : gset jsid) (stack : list jsid) : Prop := {
  dfs_ids : D3Node.id <$> ns = D3Node.id <$> N0;
  dfs_mono : V0 ⊆ visited;
  dfs_univ : visited ⊆ U;
  dfs_stack : ∀ k, k ∈ stack → k ∈ visited ∧ k ∉ V0;
  dfs_reach : ∀ k, k ∈ visited → k ∉ V0 → rtc (nbr adj) r k;
  dfs_done : ∀ k, k ∈ visited → k ∉ V0 →
    k ∈ stack ∨ (comp_of ns k = Some c ∧ ∀ b, nbr adj k b → b ∈ visited);
  dfs_frame : ∀ k, k ∈ V0 ∨ k ∉ visited → comp_of ns k = comp_of N0 k
}.

(** Invariant of the [for] loop over the nodes. *)
Record label_inv (N0 ns : list D3Node.t) (visited : gset jsid) (comp : nat)
  : Prop := {
  li_ids : D3Node.id <$> ns = D3Node.id <$> N0;
  li_univ : visited ⊆ U;
  li_labelled : ∀ k, k ∈ visited → ∃ c, comp_of ns k = Some c ∧ 1 ≤ c ≤ comp;
  li_unlabelled : ∀ k, k ∉ visited → comp_of ns k = None;
  li_closed : ∀ k b, k ∈ visited → nbr adj k b → b ∈ visited;
  li_partition : ∀ k1 k2, k1 ∈ visited → k2 ∈ visited →
    (comp_of ns k1 = comp_of ns k2 ↔ rtc (nbr adj) k1 k2);
  li_onto : ∀ c, 1 ≤ c ≤ comp → ∃ k, k ∈ visited ∧ comp_of ns k = Some c
}.

End invariants.

(** What the labelling loop establishes, stated on node ids; [comp] is the
    final value of the counter. *)
Record labelled (data : option Data.t) (ns' : list D3Node.t) (comp : nat)
  : Prop := {
  lab_ids : D3Node.id <$> ns' = D3Node.id <$> nodesIn data;
  lab_defined : ∀ k, k ∈ nodeIdSet (nodesIn data) →
    ∃ c, comp_of ns' k = Some c ∧ 1 ≤ c ≤ comp;
  lab_partition : ∀ k1 k2,
    k1 ∈ nodeIdSet (nodesIn data) → k2 ∈ nodeIdSet (nodesIn data) →
    (comp_of ns' k1 = comp_of ns' k2
     ↔ connected (edgesIn data (nodesIn data)) k1 k2);
  lab_onto : ∀ c, 1 ≤ c ≤ comp →
    ∃ k, k ∈ nodeIdSet (nodesIn data) ∧ comp_of ns' k = Some c;
  lab_climbs :
    climbs 0 ((λ k, comp_of ns' k ?? 0) <$> (D3Node.id <$> nodesIn data)) comp
}.

(** * Properties *)

(** ** Normalization *)

(** *** Comparisons of doubles *)

Lemma SFcompare_antisym (x y : spec_float) :
  SFcompare y x = CompOpp <$> SFcompare x y.
Proof.
  destruct x as [sx|sx| |sx mx ex], y as [sy|sy| |sy my ey]; simpl;
    try done; try (by destruct sx); try (by destruct sy);
    try (by destruct sx, sy).
  f_equal. destruct sx, sy; try done.
  - rewrite (Z.compare_antisym ey ex). destruct (ey ?= ex)%Z; simpl; try done.
    by rewrite (Pos.compare_cont_antisym mx my Eq).
  - rewrite (Z.compare_antisym ey ex). destruct (ey ?= ex)%Z; simpl; try done.
    by rewrite (Pos.compare_cont_antisym mx my Eq).
Qed.

Lemma SFcompare_refl (x : spec_float) :
  x ≠ S754_nan → SFcompare x x = Some Eq.
Proof.
  destruct x as [s|s| |s m e]; simpl; try done; try (by destruct s).
  intros _. rewrite Z.compare_refl, Pos.compare_cont_refl. by destruct s.
Qed.

Lemma SFcompare_is_Some (x y : spec_float) :
  x ≠ S754_nan → y ≠ S754_nan → is_Some (SFcompare x y).
Proof. destruct x, y; simpl; try done; by eexists. Qed.

Lemma is_nan_spec (x : number) : is_nan x = false ↔ Prim2SF x ≠ S754_nan.
Proof.
  unfold is_nan. rewrite FloatAxioms.eqb_spec, negb_false_iff. unfold SFeqb.
  split.
  - intros H Hn. by rewrite Hn in H.
  - intros H. by rewrite SFcompare_refl.
Qed.

Lemma ltb_leb (a b : number) :
  (a <? b)%float = true → (a <=? b)%float = true.
Proof.
  rewrite FloatAxioms.ltb_spec, FloatAxioms.leb_spec. unfold SFltb, SFleb.
  by destruct (SFcompare _ _) as [[]|].
Qed.

Lemma leb_refl (a : number) : is_nan a = false → (a <=? a)%float = true.
Proof.
  intros H%is_nan_spec. rewrite FloatAxioms.leb_spec. unfold SFleb.
  by rewrite SFcompare_refl.
Qed.

Lemma not_ltb_leb (a b : number) :
  is_nan a = false → is_nan b = false →
  (a <? b)%float = false → (b <=? a)%float = true.
Proof.
  intros Ha%is_nan_spec Hb%is_nan_spec.
  rewrite FloatAxioms.ltb_spec, FloatAxioms.leb_spec. unfold SFltb, SFleb.
  rewrite (SFcompare_antisym (Prim2SF a) (Prim2SF b)).
  destruct (SFcompare_is_Some _ _ Ha Hb) as [c ->]. by destruct c.
Qed.

Lemma is_zero_leb_one (a : number) :
  is_zero a = true → (a <=? 1)%float = true.
Proof.
  unfold is_zero. rewrite FloatAxioms.eqb_spec, FloatAxioms.leb_spec.
  destruct (Prim2SF a) as [s|s| |s m e]; try done; by destruct s.
Qed.

Lemma is_max_one_one : is_max 1 1 1.
Proof. split; [reflexivity|]. split; [reflexivity|by left]. Qed.

(** [Math.max(size || 1, 1)] is the larger of [size] and 1, an absent
    [size] counting as 1; the falsy sizes [+0] and [-0] are below 1, which
    is what they are replaced by, and the falsy size [NaN] gives 1. *)
Lemma Math_max_floor (s : option number) :
  ∃ m, Math_max (or_number s 1) 1 = m
       ∧ if is_nan (s ?? 1%float) then m = 1%float
         else is_max (s ?? 1%float) 1 m.
Proof.
  destruct s as [x|]; simpl.
  2:{ exists 1%float. split; [reflexivity|apply is_max_one_one]. }
  unfold falsy_number. destruct (is_nan x) eqn:Hnan.
  - rewrite orb_true_r. exists 1%float. split; reflexivity.
  - rewrite orb_false_r. destruct (is_zero x) eqn:Hz.
    + exists 1%float. split; [reflexivity|].
      split; [by apply is_zero_leb_one|]. split; [reflexivity|by right].
    + unfold Math_max. rewrite Hnan. cbn [orb].
      change (is_nan 1) with false. cbv iota.
      destruct (x <? 1)%float eqn:Hlt.
      * eexists; split; [done|]. split; [by apply ltb_leb|].
        split; [reflexivity|by right].
      * destruct (1 <? x)%float eqn:Hgt.
        -- eexists; split; [done|]. split; [by apply leb_refl|].
           split; [by apply ltb_leb|by left].
        -- destruct (classify x); eexists; (split; [done|]);
             (split; [|split]); try (by left); try (by right);
             try (by apply leb_refl); try (by apply not_ltb_leb).
Qed.

Lemma normalize_node_fresh (n : RawNode.t) : fresh (normalize_node n).
Proof. split; [done|]. simpl. by destruct (RawNode.label n). Qed.

Lemma normalize_as_raw (n : D3Node.t) :
  fresh n → normalize_node (as_raw n) = n.
Proof.
  destruct n as [i l im f d c]; intros [Hc Hl]; simpl in *; subst c.
  unfold normalize_node; simpl. destruct l; [done|]. by rewrite Hl.
Qed.

Lemma nodesIn_as_data (ns : list D3Node.t) (es : list D3Edge.t) :
  Forall fresh ns → nodesIn (as_data (ns, es)) = ns.
Proof.
  unfold nodesIn, as_data, raw_nodes; simpl.
  induction 1 as [|n ns Hn _ IH]; simpl; [done|].
  f_equal; [by apply normalize_as_raw|done].
Qed.

Lemma nodesIn_fresh (data : option Data.t) : Forall fresh (nodesIn data).
Proof.
  unfold nodesIn. apply Forall_fmap, Forall_forall. intros n _.
  apply normalize_node_fresh.
Qed.

Lemma filter_edges_idem (P : D3Edge.t → Prop) `{!∀ e, Decision (P e)}
    (es : list D3Edge.t) :
  filter P (filter P es) = filter P es.
Proof.
  induction es as [|e es IH]; [done|].
  rewrite filter_cons. destruct (decide (P e)) as [HP|HP]; [|done].
  rewrite filter_cons. destruct (decide (P e)); [|done]. by rewrite IH.
Qed.

(** ** The adjacency map *)

Lemma elem_of_nodeIdSet (ns : list D3Node.t) (k : jsid) :
  k ∈ nodeIdSet ns ↔ k ∈ D3Node.id <$> ns.
Proof. unfold nodeIdSet. by rewrite elem_of_list_to_set. Qed.

Lemma adj_init_acc (ns : list D3Node.t) (m : gmap jsid (list jsid)) (k : jsid) :
  foldl (λ adj n, <[D3Node.id n := []]> adj) m ns !! k
  = if decide (k ∈ D3Node.id <$> ns) then Some [] else m !! k.
Proof.
  revert m. induction ns as [|n ns IH]; intros m; csimpl.
  - done.
  - rewrite IH. repeat case_decide; try done.
    + set_solver.
    + destruct (decide (D3Node.id n = k)) as [->|Hne].
      * by rewrite lookup_insert_eq.
      * set_solver.
    + rewrite lookup_insert_ne; [done|]. set_solver.
Qed.

Lemma adj_init_lookup (ns : list D3Node.t) (k : jsid) :
  adj_init ns !! k = if decide (k ∈ D3Node.id <$> ns) then Some [] else None.
Proof. unfold adj_init. by rewrite adj_init_acc, lookup_empty. Qed.

Lemma adj_init_dom (ns : list D3Node.t) : dom (adj_init ns) = nodeIdSet ns.
Proof.
  apply set_eq. intros k.
  rewrite elem_of_dom, adj_init_lookup, elem_of_nodeIdSet.
  case_decide; [by split; eauto|]. split; [by intros [? ?]|done].
Qed.

Lemma adj_init_nbr (ns : list D3Node.t) (a b : jsid) : ¬ nbr (adj_init ns) a b.
Proof.
  intros (l & Hl & Hb). rewrite adj_init_lookup in Hl.
  case_decide; [|done]. injection Hl as <-. by apply elem_of_nil in Hb.
Qed.

Lemma adj_push_spec (k v : jsid) (adj : gmap jsid (list jsid)) :
  k ∈ dom adj →
  ∃ adj', adj_push k v adj = Return adj' ∧ dom adj' = dom adj
          ∧ ∀ a b, nbr adj' a b ↔ nbr adj a b ∨ (a = k ∧ b = v).
Proof.
  intros [l Hl]%elem_of_dom. unfold adj_push. rewrite Hl.
  eexists; split; [done|]. split.
  - rewrite dom_insert_L. apply elem_of_dom_2 in Hl. set_solver.
  - intros a b. unfold nbr. destruct (decide (a = k)) as [->|Hne].
    + rewrite lookup_insert_eq. split.
      * intros (l' & [= <-] & [Hb|Hb%list_elem_of_singleton]%elem_of_app);
          [left; eauto|by right].
      * intros [(l' & Hl' & Hb)|[_ ->]].
        -- rewrite Hl in Hl'. injection Hl' as <-.
           eexists; split; [done|]. apply elem_of_app; by left.
        -- eexists; split; [done|]. apply elem_of_app; right.
           by apply list_elem_of_singleton.
    + rewrite lookup_insert_ne by done. split; [by left|].
      intros [?|[? _]]; done.
Qed.

Lemma adj_edges_spec (es : list D3Edge.t) (adj : gmap jsid (list jsid)) :
  (∀ e, e ∈ es → D3Edge.source e ∈ dom adj ∧ D3Edge.target e ∈ dom adj) →
  ∃ adj', adj_edges es adj = Return adj' ∧ dom adj' = dom adj
          ∧ ∀ a b, nbr adj' a b ↔ nbr adj a b ∨ sc (edge_rel es) a b.
Proof.
  revert adj. induction es as [|e es IH]; intros adj Hes; simpl.
  - eexists; split; [done|]. split; [done|]. intros a b. split; [by left|].
    intros [?|[(e & He & _)|(e & He & _)]]; [done|by apply elem_of_nil in He..].
  - destruct (Hes e) as [Hs Ht]; [by left|].
    destruct (adj_push_spec (D3Edge.source e) (D3Edge.target e) adj Hs)
      as (adj1 & -> & Hd1 & Hn1); simpl.
    destruct (adj_push_spec (D3Edge.target e) (D3Edge.source e) adj1)
      as (adj2 & -> & Hd2 & Hn2); [by rewrite Hd1|]; simpl.
    destruct (IH adj2) as (adj' & -> & Hd' & Hn').
    { intros e' He'. rewrite Hd2, Hd1. apply Hes. by right. }
    eexists; split; [done|]. split; [by rewrite Hd', Hd2, Hd1|].
    intros a b. rewrite Hn', Hn2, Hn1. unfold sc, edge_rel. split.
    + intros [[[?|[-> ->]]|[-> ->]]|[(e' & He' & ?)|(e' & He' & ?)]].
      * by left.
      * right; left. exists e. split; [by left|done].
      * right; right. exists e. split; [by left|done].
      * right; left. exists e'. split; [by right|done].
      * right; right. exists e'. split; [by right|done].
    + intros [?|[(e' & He' & Hs' & Ht')|(e' & He' & Hs' & Ht')]]; [by do 3 left|..];
        apply elem_of_cons in He' as [->|He'].
      * left; left; right. done.
      * right; left. by exists e'.
      * left; right. done.
      * right; right. by exists e'.
Qed.

Lemma edgesIn_endpoints (data : option Data.t) (ns : list D3Node.t)
    (e : D3Edge.t) :
  e ∈ edgesIn data ns ↔
  e ∈ raw_edges data ∧ D3Edge.source e ∈ nodeIdSet ns
  ∧ D3Edge.target e ∈ nodeIdSet ns.
Proof. unfold edgesIn. rewrite list_elem_of_filter. tauto. Qed.

(** The adjacency map of the filtered edges is always built: no [push]
    meets a missing key, and it lists exactly the edges in both
    directions. *)
Lemma build_adj_spec (data : option Data.t) :
  let ns := nodesIn data in
  ∃ adj, build_adj ns (edgesIn data ns) = Return adj
         ∧ dom adj = nodeIdSet ns
         ∧ ∀ a b, nbr adj a b ↔ sc (edge_rel (edgesIn data ns)) a b.
Proof.
  intros ns. unfold build_adj.
  destruct (adj_edges_spec (edgesIn data ns) (adj_init ns))
    as (adj & Hadj & Hdom & Hnbr).
  { intros e (_ & Hs & Ht)%edgesIn_endpoints. by rewrite adj_init_dom. }
  exists adj. split; [done|]. split; [by rewrite Hdom, adj_init_dom|].
  intros a b. rewrite Hnbr. split; [|by right].
  intros [H|H]; [by apply adj_init_nbr in H|done].
Qed.

(** ** Writing a component *)

Lemma set_component_spec (cur : jsid) (c : nat) (ns : list D3Node.t) :
  cur ∈ D3Node.id <$> ns →
  ∃ ns', set_component cur c ns = Return ns'
         ∧ D3Node.id <$> ns' = D3Node.id <$> ns
         ∧ ∀ k, comp_of ns' k = if decide (k = cur) then Some c else comp_of ns k.
Proof.
  induction ns as [|x ns IH]; csimpl; intros Hin.
  - by apply elem_of_nil in Hin.
  - destruct (decide (D3Node.id x = cur)) as [<-|Hne].
    + eexists; split; [done|]. split; [done|]. intros k; simpl.
      destruct (decide (D3Node.id x = k)) as [<-|Hk].
      * by rewrite decide_True.
      * by rewrite decide_False.
    + apply elem_of_cons in Hin as [->|Hin]; [done|].
      destruct (IH Hin) as (ns' & -> & Hids & Hcomp). csimpl.
      eexists; split; [done|]. split; [csimpl; by rewrite Hids|].
      intros k; simpl.
      destruct (decide (D3Node.id x = k)) as [<-|Hk]; [|done].
      by rewrite decide_False.
Qed.

Lemma comp_of_None (ns : list D3Node.t) (k : jsid) :
  Forall (λ n, D3Node.component n = None) ns → comp_of ns k = None.
Proof.
  induction 1 as [|x ns Hx _ IH]; simpl; [done|]. by case_decide.
Qed.

Lemma comp_of_elem (ns : list D3Node.t) (n : D3Node.t) :
  NoDup (D3Node.id <$> ns) → n ∈ ns →
  comp_of ns (D3Node.id n) = D3Node.component n.
Proof.
  induction ns as [|x ns IH]; csimpl; intros Hnd Hin.
  - by apply elem_of_nil in Hin.
  - apply NoDup_cons in Hnd as [Hx Hnd].
    apply elem_of_cons in Hin as [->|Hin]; [by rewrite decide_True|].
    rewrite decide_False; [by apply IH|].
    intros Heq. apply Hx. rewrite Heq. by apply list_elem_of_fmap_2.
Qed.

(** ** One pass over an adjacency list *)

(** Marking an unvisited id of [U] leaves one unvisited id less. *)
Lemma size_unvisited (U visited : gset jsid) (nb : jsid) :
  nb ∈ U → nb ∉ visited →
  size (U ∖ visited) = S (size (U ∖ ({[nb]} ∪ visited))).
Proof.
  intros HU Hv.
  assert (U ∖ visited = {[nb]} ∪ U ∖ ({[nb]} ∪ visited)) as Heq.
  { apply set_eq. intros x.
    destruct (decide (x = nb)) as [->|]; set_solver. }
  rewrite Heq at 1.
  rewrite (size_union (C:=gset jsid) {[nb]} (U ∖ ({[nb]} ∪ visited)))
    by set_solver.
  by rewrite size_singleton.
Qed.

Lemma visit_neighbours_spec (U : gset jsid) (nbs : list jsid)
    (visited : gset jsid) (stack : list jsid) :
  (∀ b, b ∈ nbs → b ∈ U) →
  ∃ visited' stack',
    visit_neighbours nbs (visited, stack) = (visited', stack')
    ∧ visited' = visited ∪ list_to_set nbs
    ∧ (∀ x, x ∈ stack' ↔ x ∈ stack ∨ (x ∈ nbs ∧ x ∉ visited))
    ∧ size (U ∖ visited') + length stack' = size (U ∖ visited) + length stack.
Proof.
  unfold visit_neighbours.
  revert visited stack. induction nbs as [|nb nbs IH]; intros visited stack HU.
  - exists visited, stack. split; [done|]. split; [set_solver|].
    split; [|done]. intros x. rewrite elem_of_nil. tauto.
  - cbn [foldl]. destruct (decide (nb ∈ visited)) as [Hv|Hv].
    + destruct (IH visited stack) as (v' & s' & Heq & -> & Hs & Hsz).
      { intros b Hb. apply HU. by right. }
      exists (visited ∪ list_to_set nbs), s'. split; [done|].
      split; [set_solver|]. split; [|done].
      intros x. rewrite Hs, elem_of_cons. split; [tauto|].
      intros [?|[[->|?] ?]]; tauto.
    + destruct (IH ({[nb]} ∪ visited) (nb :: stack))
        as (v' & s' & Heq & -> & Hs & Hsz).
      { intros b Hb. apply HU. by right. }
      eexists _, s'. split; [done|]. split; [set_solver|]. split.
      * intros x. rewrite Hs, !elem_of_cons, elem_of_union, elem_of_singleton.
        destruct (decide (x = nb)) as [->|]; tauto.
      * rewrite Hsz. cbn [length].
        rewrite (size_unvisited U visited nb); [lia| |done].
        apply HU. by left.
Qed.

(** ** The depth-first search *)

Section labelling.

Context (adj : gmap jsid (list jsid)) (U : gset jsid).

(** The adjacency lists only name ids of [U], in both directions. *)
Hypothesis adj_closed : ∀ a b, nbr adj a b → b ∈ U.
Hypothesis adj_sym : ∀ a b, nbr adj a b → nbr adj b a.

Local Abbreviation dfs_inv := (dfs_inv adj U).
Local Abbreviation label_inv := (label_inv adj U).

Lemma nbr_lookup (a b : jsid) : b ∈ adj !! a ?? [] ↔ nbr adj a b.
Proof.
  unfold nbr. destruct (adj !! a) as [l|]; simpl.
  - split; [by eauto|]. by intros (l' & [= <-] & ?).
  - rewrite elem_of_nil. split; [done|]. by intros (l' & ? & ?).
Qed.

Lemma rtc_nbr_sym (a b : jsid) : rtc (nbr adj) a b → rtc (nbr adj) b a.
Proof.
  induction 1 as [|a b c Hab _ IH]; [done|].
  eapply rtc_r; [exact IH|by apply adj_sym].
Qed.

Lemma closed_rtc (S : gset jsid) (a b : jsid) :
  (∀ k k', k ∈ S → nbr adj k k' → k' ∈ S) →
  a ∈ S → rtc (nbr adj) a b → b ∈ S.
Proof. intros Hcl Ha Hab. induction Hab; eauto. Qed.

Lemma while_stack_spec (V0 : gset jsid) (N0 : list D3Node.t) (r : jsid)
    (c fuel : nat) (ns : list D3Node.t) (visited : gset jsid)
    (stack : list jsid) :
  (∀ k, k ∈ U → k ∈ D3Node.id <$> N0) →
  dfs_inv V0 N0 r c ns visited stack →
  size (U ∖ visited) + length stack ≤ fuel →
  ∃ ns' visited',
    while_stack fuel adj c ns visited stack = Return (ns', visited')
    ∧ dfs_inv V0 N0 r c ns' visited' [] ∧ visited ⊆ visited'.
Proof.
  intros HU. revert ns visited stack.
  induction fuel as [|fuel IH]; intros ns visited [|cur rest] Hinv Hfuel;
    cbn [while_stack].
  - by eauto.
  - cbn [length] in Hfuel. lia.
  - by eauto.
  - destruct Hinv as [Hids Hmono Huniv Hstack Hreach Hdone Hframe].
    destruct (Hstack cur) as [Hcur Hcur0]; [by left|].
    destruct (set_component_spec cur c ns) as (ns1 & -> & Hids1 & Hcomp1).
    { rewrite Hids. apply HU, Huniv, Hcur. }
    destruct (visit_neighbours_spec U (adj !! cur ?? []) visited rest)
      as (v' & s' & -> & -> & Hs & Hsz).
    { intros b Hb%nbr_lookup. by eapply adj_closed. }
    simpl.
    cut (dfs_inv V0 N0 r c ns1 (visited ∪ list_to_set (adj !! cur ?? [])) s').
    { intros Hinv1.
      destruct (IH _ _ _ Hinv1) as (ns' & v' & -> & Hinv' & Hsub);
        [cbn [length] in Hfuel; lia|].
      exists ns', v'. split; [done|]. split; [done|].
      etrans; [|exact Hsub]. apply union_subseteq_l. }
    assert (∀ b, b ∈ (list_to_set (adj !! cur ?? []) : gset jsid)
                 ↔ nbr adj cur b) as Hnb.
    { intros b. by rewrite elem_of_list_to_set, nbr_lookup. }
    split.
    + by rewrite Hids1.
    + set_solver.
    + intros k [Hk|Hk%Hnb]%elem_of_union; [by apply Huniv|].
      by eapply adj_closed.
    + intros k [Hk|[Hk Hkv]]%Hs.
      * destruct (Hstack k) as [? ?]; [by right|]. split; [set_solver|done].
      * split; [|set_solver]. apply elem_of_union; right.
        by apply Hnb, nbr_lookup.
    + intros k [Hk|Hk%Hnb]%elem_of_union Hk0; [by apply Hreach|].
      eapply rtc_r; [by apply Hreach|done].
    + intros k Hk Hk0. rewrite Hcomp1.
      destruct (decide (k = cur)) as [->|Hne].
      * right. split; [done|]. intros b Hb.
        apply elem_of_union; right. by apply Hnb.
      * apply elem_of_union in Hk as [Hk|Hk%Hnb].
        -- destruct (Hdone k Hk Hk0) as [[->|Hin]%elem_of_cons|[Hc Hcl]].
           ++ done.
           ++ left. apply Hs. by left.
           ++ right. split; [done|]. intros b Hb.
              apply elem_of_union; left. by apply Hcl.
        -- destruct (decide (k ∈ visited)) as [Hkv|Hkv].
           ++ destruct (Hdone k Hkv Hk0) as [[->|Hin]%elem_of_cons|[Hc Hcl]].
              ** done.
              ** left. apply Hs. by left.
              ** right. split; [done|]. intros b Hb.
                 apply elem_of_union; left. by apply Hcl.
           ++ left. apply Hs. right. split; [by apply nbr_lookup|done].
    + intros k Hk. rewrite Hcomp1, decide_False.
      * apply Hframe. set_solver.
      * intros ->. destruct Hk as [Hk|Hk]; [done|]. set_solver.
Qed.

(** Labelling a fresh component from an unvisited root re-establishes the
    invariant of the [for] loop. *)
Lemma label_inv_step (N0 ns ns' : list D3Node.t) (visited visited' : gset jsid)
    (comp : nat) (nid : jsid) :
  nid ∈ U → nid ∉ visited →
  label_inv N0 ns visited comp →
  dfs_inv visited ns nid (S comp) ns' visited' [] →
  nid ∈ visited' →
  label_inv N0 ns' visited' (S comp).
Proof.
  intros HnU Hnv [Hids Huniv Hlab Hunlab Hcl Hpart Honto]
    [Hids' Hmono Huniv' _ Hreach Hdone Hframe] Hnid.
  assert (∀ k, k ∈ visited' → k ∉ visited →
               comp_of ns' k = Some (S comp)
               ∧ ∀ b, nbr adj k b → b ∈ visited') as Hnew.
  { intros k Hk Hk0. destruct (Hdone k Hk Hk0) as [Hin|?]; [|done].
    by apply elem_of_nil in Hin. }
  assert (∀ k, k ∈ visited → ∃ c, comp_of ns' k = Some c ∧ 1 ≤ c ≤ comp)
    as Hold.
  { intros k Hk. rewrite Hframe by (by left). by apply Hlab. }
  split.
  - by rewrite Hids'.
  - done.
  - intros k Hk. destruct (decide (k ∈ visited)) as [Hk0|Hk0].
    + destruct (Hold k Hk0) as (c & Hc & ?). exists c. split; [done|lia].
    + exists (S comp). split; [by apply Hnew|lia].
  - intros k Hk. rewrite Hframe by (by right). apply Hunlab. set_solver.
  - intros k b Hk Hb. destruct (decide (k ∈ visited)) as [Hk0|Hk0].
    + apply Hmono. by eapply Hcl.
    + by eapply Hnew.
  - intros k1 k2 Hk1 Hk2.
    destruct (decide (k1 ∈ visited)) as [H1|H1],
             (decide (k2 ∈ visited)) as [H2|H2].
    + rewrite !Hframe by (by left). by apply Hpart.
    + destruct (Hold k1 H1) as (c & Hc & ?).
      destruct (Hnew k2 Hk2 H2) as [Hc2 _]. rewrite Hc, Hc2. split.
      * intros [= ->]. lia.
      * intros Hrtc. destruct H2. by eapply closed_rtc.
    + destruct (Hold k2 H2) as (c & Hc & ?).
      destruct (Hnew k1 Hk1 H1) as [Hc1 _]. rewrite Hc, Hc1. split.
      * intros [= <-]. lia.
      * intros Hrtc%rtc_nbr_sym. destruct H1. by eapply closed_rtc.
    + destruct (Hnew k1 Hk1 H1) as [-> _]. destruct (Hnew k2 Hk2 H2) as [-> _].
      split; [intros _|done]. etrans.
      * apply rtc_nbr_sym. by apply Hreach.
      * by apply Hreach.
  - intros c Hc. destruct (decide (c = S comp)) as [->|Hne].
    + exists nid. split; [done|]. by apply Hnew.
    + destruct (Honto c) as (k & Hk & Hkc); [lia|].
      exists k. split; [by apply Hmono|]. rewrite Hframe by (by left). done.
Qed.

Lemma for_nodes_spec (N0 : list D3Node.t) (fuel : nat) (todo : list jsid)
    (ns : list D3Node.t) (visited : gset jsid) (comp : nat) :
  (∀ k, k ∈ U → k ∈ D3Node.id <$> N0) →
  size U ≤ fuel →
  (∀ k, k ∈ todo → k ∈ U) →
  label_inv N0 ns visited comp →
  ∃ ns' visited' comp',
    for_nodes fuel adj todo ns visited comp = Return (ns', visited', comp')
    ∧ label_inv N0 ns' visited' comp'
    ∧ visited ⊆ visited' ∧ (∀ k, k ∈ todo → k ∈ visited')
    ∧ (∀ k, k ∈ visited → comp_of ns' k = comp_of ns k)
    ∧ climbs comp ((λ k, comp_of ns' k ?? 0) <$> todo) comp'.
Proof.
  intros HU Hfuel. revert ns visited comp.
  induction todo as [|nid todo IH]; intros ns visited comp Htodo Hinv;
    cbn [for_nodes].
  - exists ns, visited, comp. split; [done|]. split; [done|].
    split; [done|]. split; [intros k Hk; by apply elem_of_nil in Hk|].
    split; [done|]. constructor.
  - destruct (decide (nid ∈ visited)) as [Hv|Hv].
    + destruct (IH ns visited comp)
        as (ns' & v' & c' & -> & Hinv' & Hsub & Hin & Hfr & Hcl);
        [intros k Hk; apply Htodo; by right|done|].
      exists ns', v', c'. split; [done|]. split; [done|]. split; [done|].
      split; [|split; [done|]].
      * intros k [->|Hk]%elem_of_cons; [by apply Hsub|by apply Hin].
      * csimpl. rewrite (Hfr nid Hv).
        destruct (li_labelled _ _ _ _ _ _ Hinv nid Hv) as (c & -> & Hc).
        by apply climbs_old.
    + assert (nid ∈ U) as HnU by (apply Htodo; by left).
      destruct (while_stack_spec visited ns nid (S comp) fuel ns
                  ({[nid]} ∪ visited) [nid])
        as (ns1 & v1 & -> & Hdfs & Hstart).
      * intros k Hk. rewrite (li_ids _ _ _ _ _ _ Hinv). by apply HU.
      * split.
        -- done.
        -- apply union_subseteq_r.
        -- pose proof (li_univ _ _ _ _ _ _ Hinv) as Hsub.
           intros k [->%elem_of_singleton|Hk]%elem_of_union; [done|].
           by apply Hsub.
        -- intros k ->%list_elem_of_singleton.
           split; [|done]. apply elem_of_union; left.
           by apply elem_of_singleton.
        -- intros k [->%elem_of_singleton|Hk]%elem_of_union Hk0; done.
        -- intros k [->%elem_of_singleton|Hk]%elem_of_union Hk0; [|done].
           left. by left.
        -- done.
      * cbn [length]. pose proof (size_unvisited U visited nid HnU Hv).
        assert (size (U ∖ visited) ≤ size U)
          by (apply subseteq_size, subseteq_difference_l; done).
        lia.
      * simpl.
        assert (nid ∈ v1) as Hnid.
        { apply Hstart, elem_of_union. left. by apply elem_of_singleton. }
        pose proof (dfs_mono _ _ _ _ _ _ _ _ _ Hdfs) as Hmono.
        destruct (IH ns1 v1 (S comp))
          as (ns' & v' & c' & -> & Hinv' & Hsub & Hin & Hfr & Hcl).
        { intros k Hk. apply Htodo. by right. }
        { by eapply label_inv_step. }
        exists ns', v', c'. split; [done|]. split; [done|].
        split; [by etrans|]. split; [|split].
        -- intros k [->|Hk]%elem_of_cons; [by apply Hsub|by apply Hin].
        -- intros k Hk. rewrite Hfr by (by apply Hmono).
           apply (dfs_frame _ _ _ _ _ _ _ _ _ Hdfs). by left.
        -- csimpl. rewrite (Hfr nid Hnid).
           destruct (dfs_done _ _ _ _ _ _ _ _ _ Hdfs nid Hnid Hv) as [Hin'|[-> _]].
           ++ by apply elem_of_nil in Hin'.
           ++ by apply climbs_new.
Qed.

End labelling.

(** ** The labelled node list *)

Lemma rtc_nbr_connected (adj : gmap jsid (list jsid)) (es : list D3Edge.t) :
  (∀ a b, nbr adj a b ↔ sc (edge_rel es) a b) →
  ∀ a b, rtc (nbr adj) a b ↔ connected es a b.
Proof.
  intros Hnbr a b. unfold connected, rtsc.
  split; induction 1 as [|x y z Hxy _ IH]; try done;
    (eapply rtc_l; [|exact IH]); by apply Hnbr.
Qed.

Lemma size_nodeIdSet (ns : list D3Node.t) : size (nodeIdSet ns) ≤ length ns.
Proof.
  unfold nodeIdSet. induction ns as [|n ns IH]; csimpl.
  - done.
  - rewrite (size_union_alt (C:=gset jsid) {[D3Node.id n]}
               (list_to_set (D3Node.id <$> ns))).
    rewrite size_singleton.
    assert (size (list_to_set (D3Node.id <$> ns) ∖ {[D3Node.id n]} : gset jsid)
            ≤ size (list_to_set (D3Node.id <$> ns) : gset jsid))
      by (apply subseteq_size, subseteq_difference_l; done).
    lia.
Qed.

(** The adjacency map is built and the labelling loop runs to completion on
    every payload, within its loop budget and without a [TypeError]. *)
Lemma label_components_spec (data : option Data.t) :
  ∃ adj ns' comp,
    build_adj (nodesIn data) (edgesIn data (nodesIn data)) = Return adj
    ∧ label_components adj (nodesIn data)
      = Return (ns', nodeIdSet (nodesIn data), comp)
    ∧ labelled data ns' comp.
Proof.
  destruct (build_adj_spec data) as (adj & Hadj & Hdom & Hnbr).
  set (ns := nodesIn data) in *. set (U := nodeIdSet ns).
  assert (∀ a b, nbr adj a b → b ∈ U) as Hclosed.
  { intros a b [(e & He & _ & <-)|(e & He & <- & _)]%Hnbr;
      apply edgesIn_endpoints in He; tauto. }
  assert (∀ a b, nbr adj a b → nbr adj b a) as Hsym.
  { intros a b [H|H]%Hnbr; apply Hnbr; [by right|by left]. }
  destruct (for_nodes_spec adj U Hclosed Hsym ns (length ns)
              (D3Node.id <$> ns) ns ∅ 0)
    as (ns' & v' & comp & Hrun & Hinv & _ & Hall & _ & Hcl).
  - intros k Hk. by apply elem_of_nodeIdSet.
  - apply size_nodeIdSet.
  - intros k Hk. by apply elem_of_nodeIdSet.
  - split; try done.
    + intros k _. apply comp_of_None.
      eapply Forall_impl; [apply nodesIn_fresh|]. by intros n [? _].
    + intros c ?. lia.
  - assert (v' = U) as ->.
    { apply set_eq. intros k. split; [apply (li_univ _ _ _ _ _ _ Hinv)|].
      intros Hk. by apply Hall, elem_of_nodeIdSet. }
    exists adj, ns', comp. split; [done|]. split; [done|].
    destruct Hinv as [Hids _ Hlab _ _ Hpart Honto]. split; try done.
    intros k1 k2 Hk1 Hk2. rewrite (Hpart k1 k2 Hk1 Hk2).
    by apply rtc_nbr_connected.
Qed.

(** ** The callback as a whole *)

(** On every payload the callback returns: the labelled nodes, and the
    filtered edges followed by the synthetic ones. *)
Lemma KnowledgeGraph_spec (data : option Data.t) :
  ∃ ns' comp,
    labelled data ns' comp
    ∧ KnowledgeGraph data
      = Return {| Output.nodes := ns';
                  Output.edges :=
                    edgesIn data (nodesIn data)
                    ++ syntheticEdges (representativeByComp ns' (comps ns'))
                                      (comps ns') |}.
Proof.
  destruct (label_components_spec data) as (adj & ns' & comp & Hadj & Hrun & Hlab).
  exists ns', comp. split; [done|].
  unfold KnowledgeGraph. rewrite Hadj. simpl. by rewrite Hrun.
Qed.

Lemma nodesIn_ids (data : option Data.t) :
  D3Node.id <$> nodesIn data = RawNode.id <$> raw_nodes data.
Proof. unfold nodesIn. by rewrite <- list_fmap_compose. Qed.

Lemma labelled_elem (data : option Data.t) (ns' : list D3Node.t) (comp : nat)
    (n : D3Node.t) :
  labelled data ns' comp → n ∈ ns' → D3Node.id n ∈ nodeIdSet (nodesIn data).
Proof.
  intros Hlab Hn. apply elem_of_nodeIdSet. rewrite <- (lab_ids _ _ _ Hlab).
  by apply list_elem_of_fmap_2.
Qed.

Lemma labelled_NoDup (data : option Data.t) (ns' : list D3Node.t) (comp : nat) :
  labelled data ns' comp → NoDup (RawNode.id <$> raw_nodes data) →
  NoDup (D3Node.id <$> ns').
Proof. intros Hlab. by rewrite (lab_ids _ _ _ Hlab), nodesIn_ids. Qed.

Lemma NoDup_id_inj (ns : list D3Node.t) (n1 n2 : D3Node.t) :
  NoDup (D3Node.id <$> ns) → n1 ∈ ns → n2 ∈ ns →
  D3Node.id n1 = D3Node.id n2 → n1 = n2.
Proof.
  induction ns as [|x ns IH]; csimpl; intros Hnd H1 H2 Heq.
  - by apply elem_of_nil in H1.
  - apply NoDup_cons in Hnd as [Hx Hnd].
    apply elem_of_cons in H1 as [->|H1], H2 as [->|H2]; [done|..].
    + destruct Hx. rewrite Heq. by apply list_elem_of_fmap_2.
    + destruct Hx. rewrite <- Heq. by apply list_elem_of_fmap_2.
    + by apply IH.
Qed.

(** With pairwise distinct ids, equal components of two output nodes mean
    an undirected path of retained edges, and conversely. *)
Lemma partition_nodes (data : option Data.t) (ns' : list D3Node.t) (comp : nat)
    (n1 n2 : D3Node.t) :
  labelled data ns' comp → NoDup (RawNode.id <$> raw_nodes data) →
  n1 ∈ ns' → n2 ∈ ns' →
  (D3Node.component n1 = D3Node.component n2
   ↔ connected (edgesIn data (nodesIn data)) (D3Node.id n1) (D3Node.id n2)).
Proof.
  intros Hlab Hnd H1 H2.
  pose proof (labelled_NoDup _ _ _ Hlab Hnd) as Hnd'.
  rewrite <- (comp_of_elem ns' n1 Hnd' H1), <- (comp_of_elem ns' n2 Hnd' H2).
  apply (lab_partition _ _ _ Hlab); by eapply labelled_elem.
Qed.

Lemma defined_nodes (data : option Data.t) (ns' : list D3Node.t) (comp : nat)
    (n : D3Node.t) :
  labelled data ns' comp → NoDup (RawNode.id <$> raw_nodes data) → n ∈ ns' →
  ∃ c, D3Node.component n = Some c ∧ 1 ≤ c ≤ comp.
Proof.
  intros Hlab Hnd Hn.
  rewrite <- (comp_of_elem ns' n (labelled_NoDup _ _ _ Hlab Hnd) Hn).
  apply (lab_defined _ _ _ Hlab). by eapply labelled_elem.
Qed.

Lemma onto_nodes (data : option Data.t) (ns' : list D3Node.t) (comp c : nat) :
  labelled data ns' comp → NoDup (RawNode.id <$> raw_nodes data) →
  1 ≤ c ≤ comp → ∃ n, n ∈ ns' ∧ D3Node.component n = Some c.
Proof.
  intros Hlab Hnd Hc.
  destruct (lab_onto _ _ _ Hlab c Hc) as (k & Hk & Hkc).
  apply elem_of_nodeIdSet in Hk. rewrite <- (lab_ids _ _ _ Hlab) in Hk.
  apply list_elem_of_fmap in Hk as (n & -> & Hn). exists n. split; [done|].
  by rewrite <- (comp_of_elem ns' n (labelled_NoDup _ _ _ Hlab Hnd) Hn).
Qed.

(** ** Distinct components in order of first occurrence *)

Lemma set_order_climbs_acc (c c' : nat) (l : list nat) :
  climbs c l c' →
  foldl (λ acc x, if decide (x ∈ acc) then acc else acc ++ [x]) (seq 1 c) l
  = seq 1 c'.
Proof.
  induction 1 as [c|c x l c' Hx _ IH|c l c' _ IH]; cbn [foldl].
  - done.
  - rewrite decide_True; [done|]. apply elem_of_seq. lia.
  - rewrite decide_False.
    + by rewrite <- seq_S.
    + rewrite elem_of_seq. lia.
Qed.

Lemma set_order_climbs (k : nat) (l : list nat) :
  climbs 0 l k → set_order l = seq 1 k.
Proof. apply set_order_climbs_acc. Qed.

Lemma comp_or_0_comp_of (ns : list D3Node.t) :
  NoDup (D3Node.id <$> ns) →
  comp_or_0 <$> ns = (λ k, comp_of ns k ?? 0) <$> (D3Node.id <$> ns).
Proof.
  intros Hnd. rewrite <- list_fmap_compose. apply list_eq. intros i.
  rewrite !list_lookup_fmap. destruct (ns !! i) as [n|] eqn:Hi; [|done].
  simpl. f_equal. rewrite (comp_of_elem ns n Hnd); [done|].
  by eapply list_elem_of_lookup_2.
Qed.

Lemma labelled_set_order (data : option Data.t) (ns' : list D3Node.t)
    (comp : nat) :
  labelled data ns' comp → NoDup (RawNode.id <$> raw_nodes data) →
  set_order (comp_or_0 <$> ns') = seq 1 comp.
Proof.
  intros Hlab Hnd. apply set_order_climbs.
  rewrite (comp_or_0_comp_of ns' (labelled_NoDup _ _ _ Hlab Hnd)).
  rewrite (lab_ids _ _ _ Hlab). apply (lab_climbs _ _ _ Hlab).
Qed.

(** ** Representatives and synthetic edges *)

Lemma find_rep_Some (ns : list D3Node.t) (c : nat) (rep : D3Node.t) :
  find_rep ns c = Some rep → rep ∈ ns ∧ comp_or_0 rep = c.
Proof.
  unfold find_rep. destruct (list_find _ ns) as [[i n]|] eqn:Hf; [|done].
  intros [= <-]. apply list_find_Some in Hf as (Hi & Hc & _).
  split; [by eapply list_elem_of_lookup_2|done].
Qed.

Lemma find_rep_is_Some (ns : list D3Node.t) (n : D3Node.t) :
  n ∈ ns → is_Some (find_rep ns (comp_or_0 n)).
Proof.
  intros Hn. unfold find_rep.
  destruct (list_find_elem_of (λ x, comp_or_0 x = comp_or_0 n) ns n Hn eq_refl)
    as [[i x] ->].
  by eexists.
Qed.

Lemma representativeByComp_acc (ns : list D3Node.t) (cs : list nat)
    (m : gmap nat jsid) (c : nat) :
  foldl (λ reps c,
           match find_rep ns c with
           | Some rep => <[c := D3Node.id rep]> reps
           | None => reps
           end) m cs !! c
  = if decide (c ∈ cs)
    then match find_rep ns c with
         | Some rep => Some (D3Node.id rep)
         | None => m !! c
         end
    else m !! c.
Proof.
  revert m. induction cs as [|x cs IH]; intros m; cbn [foldl].
  - done.
  - rewrite IH. destruct (decide (x = c)) as [->|Hne].
    + rewrite (decide_True (P := c ∈ c :: cs)) by (by left).
      destruct (find_rep ns c) as [rep|] eqn:Hrep.
      * rewrite lookup_insert_eq. by case_decide.
      * by case_decide.
    + assert (match find_rep ns x with
              | Some rep => <[x := D3Node.id rep]> m
              | None => m
              end !! c = m !! c) as ->.
      { destruct (find_rep ns x); [by rewrite lookup_insert_ne|done]. }
      destruct (decide (c ∈ cs)) as [Hc|Hc].
      * by rewrite decide_True by (by right).
      * rewrite decide_False; [done|].
        intros [->|?]%elem_of_cons; done.
Qed.

Lemma representativeByComp_lookup (ns : list D3Node.t) (cs : list nat)
    (c : nat) :
  representativeByComp ns cs !! c
  = if decide (c ∈ cs) then D3Node.id <$> find_rep ns c else None.
Proof.
  unfold representativeByComp. rewrite representativeByComp_acc, lookup_empty.
  case_decide; [|done]. by destruct (find_rep ns c).
Qed.

(** A truthy representative is the id of a node of the list. *)
Lemma rep_at_truthy (ns : list D3Node.t) (cs : list nat) (i : nat) :
  truthy (rep_at (representativeByComp ns cs) cs i) = true →
  rep_at (representativeByComp ns cs) cs i ∈ D3Node.id <$> ns.
Proof.
  unfold rep_at. destruct (cs !! i) as [c|]; simpl; [|done].
  rewrite representativeByComp_lookup. case_decide; simpl; [|done].
  destruct (find_rep ns c) as [rep|] eqn:Hrep; simpl; [|done].
  intros _. apply find_rep_Some in Hrep as [Hin _].
  by apply list_elem_of_fmap_2.
Qed.

Lemma elem_of_syntheticEdges (reps : gmap nat jsid) (cs : list nat)
    (e : D3Edge.t) :
  e ∈ syntheticEdges reps cs ↔
  ∃ i, i + 1 < length cs
       ∧ truthy (rep_at reps cs i) = true
       ∧ truthy (rep_at reps cs (i + 1)) = true
       ∧ e = synthetic (rep_at reps cs i) (rep_at reps cs (i + 1)).
Proof.
  unfold syntheticEdges. rewrite list_elem_of_In, in_flat_map. split.
  - intros (i & Hi%in_seq & He). exists i.
    destruct (truthy (rep_at reps cs i)) eqn:Ha,
             (truthy (rep_at reps cs (i + 1))) eqn:Hb; simpl in He; try done.
    destruct He as [<-|[]]. split; [lia|done].
  - intros (i & Hi & Ha & Hb & ->). exists i. split; [apply in_seq; lia|].
    rewrite Ha, Hb. by left.
Qed.

(** ** What the labelling loop writes *)

Lemma without_component_ids (ns ns' : list D3Node.t) :
  without_component <$> ns' = without_component <$> ns →
  D3Node.id <$> ns' = D3Node.id <$> ns.
Proof.
  intros H. apply (f_equal (fmap D3Node.id)) in H.
  by rewrite <- !list_fmap_compose in H.
Qed.

Lemma writes_first_refl (ns : list D3Node.t) : writes_first ns ns.
Proof. by split. Qed.

Lemma writes_first_trans (ns1 ns2 ns3 : list D3Node.t) :
  writes_first ns1 ns2 → writes_first ns2 ns3 → writes_first ns1 ns3.
Proof.
  intros [He1 Hs1] [He2 Hs2]. split; [by rewrite He2|].
  intros i n Hi Hin. apply Hs2; [by apply Hs1|].
  rewrite fmap_take, (without_component_ids _ _ He1), <- fmap_take. done.
Qed.

Lemma set_component_writes_first (cur : jsid) (c : nat)
    (ns ns' : list D3Node.t) :
  set_component cur c ns = Return ns' → writes_first ns ns'.
Proof.
  revert ns'. induction ns as [|x ns IH]; intros ns'; cbn [set_component];
    [done|].
  destruct (decide (D3Node.id x = cur)) as [Hx|Hx].
  - intros [= <-]. split; [done|]. intros [|i] n Hi Hin; [|done].
    by apply elem_of_nil in Hin.
  - destruct (set_component cur c ns) as [ns1|] eqn:Hset; [|done].
    simpl. intros [= <-]. destruct (IH ns1 eq_refl) as [He Hs].
    split; [csimpl; by rewrite He|].
    intros [|i] n Hi Hin; [done|]. csimpl in *.
    destruct (decide (D3Node.id n = D3Node.id x)) as [Heq|Hne].
    + rewrite <- Hi. clear IH Hs Hin He. revert i ns1 Hset Hi.
      induction ns as [|y ns IH]; intros i ns1; cbn [set_component]; [done|].
      destruct (decide (D3Node.id y = cur)) as [Hy|Hy].
      * intros [= <-] Hi. destruct i as [|i]; [|done].
        simpl in Hi. injection Hi as ->. congruence.
      * destruct (set_component cur c ns) as [ns2|] eqn:Hset2; [|done].
        simpl. intros [= <-] Hi. destruct i as [|i]; [done|].
        simpl in *. by eapply IH.
    + apply Hs; [done|]. apply elem_of_cons in Hin as [?|?]; done.
Qed.

Lemma while_stack_writes_first (fuel : nat) (adj : gmap jsid (list jsid))
    (c : nat) (ns : list D3Node.t) (visited : gset jsid) (stack : list jsid)
    (ns' : list D3Node.t) (visited' : gset jsid) :
  while_stack fuel adj c ns visited stack = Return (ns', visited') →
  writes_first ns ns'.
Proof.
  revert ns visited stack.
  induction fuel as [|fuel IH]; intros ns visited [|cur rest];
    cbn [while_stack]; try done; try (intros [= <- _]; apply writes_first_refl).
  destruct (set_component cur c ns) as [ns1|] eqn:Hset; [|done]. simpl.
  destruct (visit_neighbours _ _) as [v1 s1]. intros Hrun.
  eapply writes_first_trans; [by eapply set_component_writes_first|].
  by eapply IH.
Qed.

Lemma for_nodes_writes_first (fuel : nat) (adj : gmap jsid (list jsid))
    (todo : list jsid) (ns : list D3Node.t) (visited : gset jsid) (comp : nat)
    (ns' : list D3Node.t) (visited' : gset jsid) (comp' : nat) :
  for_nodes fuel adj todo ns visited comp = Return (ns', visited', comp') →
  writes_first ns ns'.
Proof.
  revert ns visited comp.
  induction todo as [|nid todo IH]; intros ns visited comp; cbn [for_nodes].
  - intros [= <- _ _]. apply writes_first_refl.
  - destruct (decide (nid ∈ visited)); [by apply IH|].
    destruct (while_stack _ _ _ _ _ _) as [[ns1 v1]|] eqn:Hwhile; [|done].
    simpl. intros Hrun.
    eapply writes_first_trans; [by eapply while_stack_writes_first|].
    by eapply IH.
Qed.

(** The callback's result together with what was written to the nodes. *)
Lemma KnowledgeGraph_writes_first (data : option Data.t) :
  ∃ ns' comp,
    labelled data ns' comp ∧ writes_first (nodesIn data) ns'
    ∧ KnowledgeGraph data
      = Return {| Output.nodes := ns';
                  Output.edges :=
                    edgesIn data (nodesIn data)
                    ++ syntheticEdges (representativeByComp ns' (comps ns'))
                                      (comps ns') |}.
Proof.
  destruct (label_components_spec data) as (adj & ns' & comp & Hadj & Hrun & Hlab).
  exists ns', comp. split; [done|]. split.
  - by eapply for_nodes_writes_first.
  - unfold KnowledgeGraph. rewrite Hadj. simpl. by rewrite Hrun.
Qed.

Lemma without_component_normalize (n : RawNode.t) :
  without_component (normalize_node n) = normalize_node n.
Proof. done. Qed.

Lemma comp_of_first (ns : list D3Node.t) (i : nat) (n : D3Node.t) :
  ns !! i = Some n → D3Node.id n ∉ D3Node.id <$> take i ns →
  comp_of ns (D3Node.id n) = D3Node.component n.
Proof.
  revert i. induction ns as [|x ns IH]; intros [|i] Hi Hnotin; try done.
  - simpl in *. injection Hi as ->. by rewrite decide_True.
  - csimpl in *. rewrite decide_False.
    + apply (IH i); [done|]. intros Hin. apply Hnotin. by right.
    + intros Heq. apply Hnotin. rewrite Heq. by left.
Qed.

(** A node whose id already occurs earlier in the list is never written;
    every other node gets a component. *)
Lemma first_occurrences_labelled (data : option Data.t) (ns' : list D3Node.t)
    (comp : nat) (i : nat) (n : D3Node.t) :
  labelled data ns' comp → writes_first (nodesIn data) ns' →
  ns' !! i = Some n →
  if decide (D3Node.id n ∈ D3Node.id <$> take i ns')
  then D3Node.component n = None
  else ∃ c, D3Node.component n = Some c ∧ 1 ≤ c ≤ comp.
Proof.
  intros Hlab [Hw Hdup] Hi.
  pose proof (without_component_ids _ _ Hw) as Hids.
  case_decide as Hin.
  - assert (is_Some (nodesIn data !! i)) as [n0 Hn0].
    { apply lookup_lt_is_Some. rewrite <- (length_fmap D3Node.id), <- Hids.
      rewrite length_fmap. by eapply lookup_lt_Some. }
    assert (D3Node.id n0 = D3Node.id n) as Hid0.
    { apply (f_equal (.!! i)) in Hids. rewrite !list_lookup_fmap in Hids.
      rewrite Hi, Hn0 in Hids. simpl in Hids. congruence. }
    rewrite fmap_take, Hids, <- fmap_take, <- Hid0 in Hin.
    rewrite (Hdup i n0 Hn0 Hin) in Hi. injection Hi as <-.
    pose proof (nodesIn_fresh data) as Hfresh. rewrite Forall_forall in Hfresh.
    apply Hfresh. by eapply list_elem_of_lookup_2.
  - rewrite <- (comp_of_first ns' i n Hi Hin).
    apply (lab_defined _ _ _ Hlab). eapply labelled_elem; [done|].
    by eapply list_elem_of_lookup_2.
Qed.

Lemma written_nodes (data : option Data.t) (ns' : list D3Node.t) :
  writes_first (nodesIn data) ns' → without_component <$> ns' = nodesIn data.
Proof.
  intros [Hw _]. rewrite Hw.
  unfold nodesIn. rewrite <- list_fmap_compose. by apply list_fmap_ext.
Qed.

(** * Claims *)

Lemma edgesIn_retained (data : option Data.t) :
  edgesIn data (nodesIn data) = retained data.
Proof.
  unfold edgesIn, retained. apply list_filter_iff. intros e.
  by rewrite !elem_of_nodeIdSet, nodesIn_ids.
Qed.

Lemma connected_nil (a b : jsid) : connected [] a b → a = b.
Proof.
  intros H. eapply rtc_nf; [exact H|].
  intros (c & [(e & He & _)|(e & He & _)]); by apply elem_of_nil in He.
Qed.

(** C1 (code defect). The output graph is not always connected: on two
    isolated nodes of which one has the empty string as id, the guard
    [if (a && b)] of line 93 takes the empty representative for a missing
    one, no connector is emitted, and the two output nodes are joined by no
    path of output edges. *)
Theorem C1_empty_id_disconnected :
  ∃ out, KnowledgeGraph sample_empty_id = Return out
         ∧ D3Node.id <$> Output.nodes out = [Some EmptyString; Some "B"]
         ∧ ¬ connected (Output.edges out) (Some EmptyString) (Some "B").
Proof.
  eexists. split; [vm_compute; reflexivity|]. split; [done|].
  cbn [Output.edges]. by intros ?%connected_nil.
Qed.

(** C3 (code defect). The number of synthetic edges is not always the
    number of distinct component ids minus one: on two isolated nodes of
    which one has the empty string as id, there are two distinct component
    ids, 1 and 2, and no synthetic edge. *)
Theorem C3_empty_id_no_connector :
  ∃ out, KnowledgeGraph sample_empty_id = Return out
         ∧ comps (Output.nodes out) = [1; 2]
         ∧ retained sample_empty_id = []
         ∧ Output.edges out = [].
Proof. eexists. split; [vm_compute; reflexivity|]. by vm_compute. Qed.

(** C2. For a payload with pairwise distinct node ids, the callback returns
    the nodes of the payload, normalized and in their order, each with a
    [component]; two of them carry equal [component] values if and only if
    their ids are joined by an undirected path of retained edges; a node
    that no retained edge touches shares its component with no other
    node. *)
Theorem C2_partition (data : option Data.t) :
  NoDup (RawNode.id <$> raw_nodes data) →
  ∃ out, KnowledgeGraph data = Return out
    ∧ without_component <$> Output.nodes out = nodesIn data
    ∧ (∀ n, n ∈ Output.nodes out → is_Some (D3Node.component n))
    ∧ (∀ n1 n2, n1 ∈ Output.nodes out → n2 ∈ Output.nodes out →
         (D3Node.component n1 = D3Node.component n2
          ↔ connected (retained data) (D3Node.id n1) (D3Node.id n2)))
    ∧ (∀ n1 n2, n1 ∈ Output.nodes out → n2 ∈ Output.nodes out →
         (∀ e, e ∈ retained data →
               D3Edge.source e ≠ D3Node.id n1 ∧ D3Edge.target e ≠ D3Node.id n1) →
         D3Node.component n1 = D3Node.component n2 → n1 = n2).
Proof.
  intros Hnd.
  destruct (KnowledgeGraph_writes_first data) as (ns' & comp & Hlab & Hw & ->).
  eexists. split; [done|]. cbn [Output.nodes]. rewrite <- edgesIn_retained.
  split; [by apply written_nodes|]. split; [|split].
  - intros n Hn.
    destruct (defined_nodes data ns' comp n Hlab Hnd Hn) as (c & -> & _).
    by eexists.
  - intros n1 n2 H1 H2. by eapply partition_nodes.
  - intros n1 n2 H1 H2 Hiso Hc.
    apply (partition_nodes data ns' comp n1 n2 Hlab Hnd H1 H2) in Hc.
    eapply NoDup_id_inj; [by eapply labelled_NoDup|done..|].
    eapply rtc_nf; [exact Hc|].
    intros (k & [(e & He & Hs & _)|(e & He & _ & Ht)]);
      destruct (Hiso e He); done.
Qed.

Lemma C2_partition_witness :
  ∃ out, KnowledgeGraph sample_two_pairs = Return out
    ∧ without_component <$> Output.nodes out = nodesIn sample_two_pairs
    ∧ (∀ n, n ∈ Output.nodes out → is_Some (D3Node.component n))
    ∧ (∀ n1 n2, n1 ∈ Output.nodes out → n2 ∈ Output.nodes out →
         (D3Node.component n1 = D3Node.component n2
          ↔ connected (retained sample_two_pairs)
                      (D3Node.id n1) (D3Node.id n2)))
    ∧ (∀ n1 n2, n1 ∈ Output.nodes out → n2 ∈ Output.nodes out →
         (∀ e, e ∈ retained sample_two_pairs →
               D3Edge.source e ≠ D3Node.id n1 ∧ D3Edge.target e ≠ D3Node.id n1) →
         D3Node.component n1 = D3Node.component n2 → n1 = n2).
Proof.
  apply (C2_partition sample_two_pairs).
  apply (bool_decide_unpack _). vm_compute. exact I.
Defined.

(** C4. On every payload the callback returns without an error, every edge
    of the output list, retained or synthetic, has its [source] and its
    [target] among the ids of the output nodes, and an edge with an endpoint
    that is the id of no input node is absent from the output. *)
Theorem C4_referential_integrity (data : option Data.t) :
  ∃ out, KnowledgeGraph data = Return out
    ∧ (∀ e, e ∈ Output.edges out →
         D3Edge.source e ∈ D3Node.id <$> Output.nodes out
         ∧ D3Edge.target e ∈ D3Node.id <$> Output.nodes out)
    ∧ (∀ e, ¬ (D3Edge.source e ∈ RawNode.id <$> raw_nodes data
               ∧ D3Edge.target e ∈ RawNode.id <$> raw_nodes data) →
         e ∉ Output.edges out).
Proof.
  destruct (KnowledgeGraph_spec data) as (ns' & comp & Hlab & ->).
  eexists. split; [done|]. cbn [Output.nodes Output.edges].
  assert (∀ e, e ∈ edgesIn data (nodesIn data)
                   ++ syntheticEdges (representativeByComp ns' (comps ns'))
                                     (comps ns') →
               D3Edge.source e ∈ D3Node.id <$> ns'
               ∧ D3Edge.target e ∈ D3Node.id <$> ns') as Hint.
  { intros e [He|He]%elem_of_app.
    - apply edgesIn_endpoints in He as (_ & Hs & Ht).
      rewrite (lab_ids _ _ _ Hlab). by rewrite <- !elem_of_nodeIdSet.
    - apply elem_of_syntheticEdges in He as (i & _ & Ha & Hb & ->).
      split; by apply rep_at_truthy. }
  split; [done|]. intros e Hne He. apply Hne.
  rewrite <- nodesIn_ids, <- (lab_ids _ _ _ Hlab). by apply Hint.
Qed.

(** The division by 5 rounds as the program's does: a [size] of 3.3 gives
    the double below 0.66. *)
Example importance_of_size_3_3 :
  D3Node.importance
    (normalize_node (RawNode.mk (Some "A"%string) None (Some 3.3%float)
                                None None None))
  = 0.6599999999999999%float.
Proof. reflexivity. Qed.

(** C5. Normalization maps the raw nodes to the canonical nodes one by one,
    in order: [id] is copied; [label] is the raw label when present and the
    id otherwise; [importance] is the raw importance when present and
    otherwise the larger of [size] (1 when absent) and 1, divided by 5 as
    doubles, a [size] that is [NaN] counting as 1; [frequency] and [degree]
    are the raw values when present and 0 otherwise. *)
Theorem C5_normalization_defaults (data : option Data.t) :
  Forall2 (λ n c,
             D3Node.id c = RawNode.id n
             ∧ D3Node.label c = match RawNode.label n with
                                | Some l => Some l
                                | None => RawNode.id n
                                end
             ∧ match RawNode.importance n with
               | Some v => D3Node.importance c = v
               | None =>
                   ∃ m, (if is_nan (RawNode.size n ?? 1%float) then m = 1%float
                         else is_max (RawNode.size n ?? 1%float) 1%float m)
                        ∧ D3Node.importance c = (m / 5)%float
               end
             ∧ D3Node.frequency c = RawNode.frequency n ?? 0%float
             ∧ D3Node.degree c = RawNode.degree n ?? 0%float)
          (raw_nodes data) (nodesIn data).
Proof.
  unfold nodesIn. apply Forall2_fmap_r, Forall_Forall2_diag, Forall_forall.
  intros n _. repeat split; try done.
  destruct (RawNode.importance n) as [v|] eqn:Hv; simpl; rewrite Hv; [done|].
  destruct (Math_max_floor (RawNode.size n)) as (m & Hm & Hmax).
  exists m. split; [done|]. simpl. by rewrite Hm.
Qed.

(** C6 (amended). A node object without [id] is not rejected. For every
    payload whose node entries are objects, whatever fields they lack, the
    callback returns: the output nodes are the normalized raw nodes in
    order, so a missing id stays missing; the first node without id gets a
    component, and a later node without id is left without one. *)
Theorem C6_no_validation (data : option Data.t) :
  ∃ out, KnowledgeGraph data = Return out
    ∧ without_component <$> Output.nodes out = nodesIn data
    ∧ D3Node.id <$> Output.nodes out = RawNode.id <$> raw_nodes data
    ∧ ∀ i n, Output.nodes out !! i = Some n → D3Node.id n = None →
        if decide (None ∈ D3Node.id <$> take i (Output.nodes out))
        then D3Node.component n = None
        else is_Some (D3Node.component n).
Proof.
  destruct (KnowledgeGraph_writes_first data) as (ns' & comp & Hlab & Hw & ->).
  eexists. split; [done|]. cbn [Output.nodes].
  split; [by apply written_nodes|].
  split; [by rewrite (lab_ids _ _ _ Hlab), nodesIn_ids|].
  intros i n Hi Hid.
  pose proof (first_occurrences_labelled data ns' comp i n Hlab Hw Hi) as H.
  rewrite Hid in H. case_decide; [done|].
  destruct H as (c & -> & _). by eexists.
Qed.

(** C6 as stated fails on the payload whose only node is the empty object:
    no error is raised, the node keeps an undefined [id] and [label], gets
    the default importance and is labelled with component 1. *)
Lemma C6_missing_id_returns :
  KnowledgeGraph sample_missing_id
  = Return {| Output.nodes :=
                [D3Node.mk None None 0.2%float 0%float 0%float (Some 1)];
              Output.edges := [] |}.
Proof. by vm_compute. Qed.

(** C8. Normalizing the output of normalization changes nothing. *)
Theorem C8_normalize_idempotent (data : option Data.t) :
  normalize (as_data (normalize data)) = normalize data.
Proof.
  unfold normalize.
  rewrite (nodesIn_as_data _ _ (nodesIn_fresh data)). f_equal.
  unfold edgesIn at 1. unfold as_data, raw_edges; simpl.
  apply filter_edges_idem.
Qed.

(** C10. The output edge list is the retained raw edges, the records as
    they came and in their order, followed by the synthetic edges. *)
Theorem C10_retained_edges_first (data : option Data.t) :
  ∃ out, KnowledgeGraph data = Return out
    ∧ Output.edges out
      = retained data
        ++ syntheticEdges
             (representativeByComp (Output.nodes out) (comps (Output.nodes out)))
             (comps (Output.nodes out)).
Proof.
  destruct (KnowledgeGraph_spec data) as (ns' & comp & _ & ->).
  eexists. split; [done|]. cbn [Output.nodes Output.edges].
  by rewrite edgesIn_retained.
Qed.

(** ** Reordering the payload *)

Lemma connected_mono (es es' : list D3Edge.t) (a b : jsid) :
  (∀ e, e ∈ es → e ∈ es') → connected es a b → connected es' a b.
Proof.
  intros Hsub. unfold connected, rtsc.
  induction 1 as [|x y z Hxy _ IH]; [done|].
  eapply rtc_l; [|exact IH].
  destruct Hxy as [(e & He & ?)|(e & He & ?)]; [left|right];
    exists e; split; auto.
Qed.

Lemma retained_Permutation (data data' : option Data.t) (e : D3Edge.t) :
  raw_nodes data' ≡ₚ raw_nodes data → raw_edges data' ≡ₚ raw_edges data →
  e ∈ retained data' → e ∈ retained data.
Proof.
  intros Hn He. unfold retained. rewrite !list_elem_of_filter.
  by rewrite Hn, He.
Qed.

(** C7. For a payload with pairwise distinct node ids, reordering the node
    list and the edge list leaves the partition unchanged: the callback
    returns on both payloads, the output nodes carry the same ids, and two
    nodes have equal [component] values in one output if and only if the
    nodes with their ids have equal [component] values in the other. *)
Theorem C7_partition_order_independent (data data' : option Data.t) :
  NoDup (RawNode.id <$> raw_nodes data) →
  raw_nodes data' ≡ₚ raw_nodes data →
  raw_edges data' ≡ₚ raw_edges data →
  ∃ out out',
    KnowledgeGraph data = Return out ∧ KnowledgeGraph data' = Return out'
    ∧ D3Node.id <$> Output.nodes out' ≡ₚ D3Node.id <$> Output.nodes out
    ∧ ∀ n1 n2 n1' n2',
        n1 ∈ Output.nodes out → n2 ∈ Output.nodes out →
        n1' ∈ Output.nodes out' → n2' ∈ Output.nodes out' →
        D3Node.id n1' = D3Node.id n1 → D3Node.id n2' = D3Node.id n2 →
        (D3Node.component n1' = D3Node.component n2'
         ↔ D3Node.component n1 = D3Node.component n2).
Proof.
  intros Hnd Hn He.
  assert (NoDup (RawNode.id <$> raw_nodes data')) as Hnd' by (by rewrite Hn).
  destruct (KnowledgeGraph_spec data) as (ns1 & c1 & Hlab1 & ->).
  destruct (KnowledgeGraph_spec data') as (ns2 & c2 & Hlab2 & ->).
  eexists _, _. split; [done|]. split; [done|]. cbn [Output.nodes]. split.
  - rewrite (lab_ids _ _ _ Hlab1), (lab_ids _ _ _ Hlab2), !nodesIn_ids.
    by rewrite Hn.
  - intros n1 n2 n1' n2' H1 H2 H1' H2' Hid1 Hid2.
    rewrite (partition_nodes data ns1 c1 n1 n2 Hlab1 Hnd H1 H2).
    rewrite (partition_nodes data' ns2 c2 n1' n2' Hlab2 Hnd' H1' H2').
    rewrite Hid1, Hid2, !edgesIn_retained.
    split; apply connected_mono; intros e; by apply retained_Permutation.
Qed.

Lemma C7_partition_order_independent_witness :
  ∃ out out',
    KnowledgeGraph sample_two_pairs = Return out
    ∧ KnowledgeGraph sample_two_pairs_permuted = Return out'
    ∧ D3Node.id <$> Output.nodes out' ≡ₚ D3Node.id <$> Output.nodes out
    ∧ ∀ n1 n2 n1' n2',
        n1 ∈ Output.nodes out → n2 ∈ Output.nodes out →
        n1' ∈ Output.nodes out' → n2' ∈ Output.nodes out' →
        D3Node.id n1' = D3Node.id n1 → D3Node.id n2' = D3Node.id n2 →
        (D3Node.component n1' = D3Node.component n2'
         ↔ D3Node.component n1 = D3Node.component n2).
Proof.
  apply (C7_partition_order_independent
           sample_two_pairs sample_two_pairs_permuted).
  - apply (bool_decide_unpack _). vm_compute. exact I.
  - apply perm_swap.
  - apply perm_swap.
Defined.



(** * Further properties of the callback *)

(** ** The sorted list of component ids (line 83) *)

Lemma set_order_acc (acc l : list nat) :
  NoDup acc →
  let r := foldl (λ acc x, if decide (x ∈ acc) then acc else acc ++ [x]) acc l in
  NoDup r ∧ ∀ x, x ∈ r ↔ x ∈ acc ∨ x ∈ l.
Proof.
  revert acc. induction l as [|y l IH]; intros acc Hnd; cbn [foldl].
  - split; [done|]. intros x. rewrite elem_of_nil. tauto.
  - destruct (decide (y ∈ acc)) as [Hy|Hy].
    + destruct (IH acc Hnd) as [Hnd' Hin]. split; [done|].
      intros x. rewrite Hin, elem_of_cons.
      split; [tauto|]. intros [?|[->|?]]; tauto.
    + destruct (IH (acc ++ [y])) as [Hnd' Hin].
      { apply NoDup_app. split; [done|]. split; [|apply NoDup_singleton].
        intros x Hx ->%list_elem_of_singleton. done. }
      split; [done|]. intros x.
      rewrite Hin, elem_of_app, list_elem_of_singleton, elem_of_cons. tauto.
Qed.

Lemma set_order_NoDup (l : list nat) : NoDup (set_order l).
Proof. apply (set_order_acc [] l), NoDup_nil_2. Qed.

Lemma elem_of_set_order (l : list nat) (x : nat) : x ∈ set_order l ↔ x ∈ l.
Proof.
  destruct (set_order_acc [] l (NoDup_nil_2)) as [_ Hin].
  unfold set_order. rewrite Hin, elem_of_nil. tauto.
Qed.

Lemma Sorted_seq (a n : nat) : Sorted (≤) (seq a n).
Proof.
  revert a. induction n as [|n IH]; intros a; cbn [seq]; constructor.
  - apply IH.
  - destruct n; cbn [seq]; constructor. lia.
Qed.

Lemma sort_ascending_seq (a n : nat) : sort_ascending (seq a n) = seq a n.
Proof.
  unfold sort_ascending. apply (Sorted_unique (≤)).
  - apply Sorted_merge_sort. apply _.
  - apply Sorted_seq.
  - apply merge_sort_Permutation.
Qed.

Lemma labelled_comps (data : option Data.t) (ns' : list D3Node.t) (comp : nat) :
  labelled data ns' comp → NoDup (RawNode.id <$> raw_nodes data) →
  comps ns' = seq 1 comp.
Proof.
  intros Hlab Hnd. unfold comps.
  by rewrite (labelled_set_order _ _ _ Hlab Hnd), sort_ascending_seq.
Qed.

(** ** The chain of connectors when ids are distinct and non-empty *)

Lemma rep_at_labelled (data : option Data.t) (ns' : list D3Node.t)
    (comp c : nat) :
  labelled data ns' comp → NoDup (RawNode.id <$> raw_nodes data) →
  1 ≤ c ≤ comp →
  ∃ rep, find_rep ns' c = Some rep ∧ rep ∈ ns'
         ∧ D3Node.component rep = Some c
         ∧ rep_at (representativeByComp ns' (comps ns')) (comps ns') (c - 1)
           = D3Node.id rep.
Proof.
  intros Hlab Hnd Hc.
  destruct (onto_nodes data ns' comp c Hlab Hnd Hc) as (n & Hn & Hnc).
  destruct (find_rep_is_Some ns' n Hn) as [rep Hrep].
  assert (comp_or_0 n = c) as Hn0 by (unfold comp_or_0; by rewrite Hnc).
  rewrite Hn0 in Hrep. destruct (find_rep_Some _ _ _ Hrep) as [Hin Hrc].
  exists rep. split; [done|]. split; [done|]. split.
  - destruct (defined_nodes data ns' comp rep Hlab Hnd Hin) as (c' & Hc' & _).
    unfold comp_or_0 in Hrc. rewrite Hc' in Hrc. by subst c'.
  - unfold rep_at. rewrite (labelled_comps _ _ _ Hlab Hnd).
    rewrite (lookup_seq_lt 1 comp (c - 1)) by lia. simpl.
    replace (S (c - 1)) with c by lia.
    rewrite representativeByComp_lookup, decide_True, Hrep; [done|].
    apply elem_of_seq. lia.
Qed.

Lemma labelled_truthy (data : option Data.t) (ns' : list D3Node.t)
    (comp : nat) (n : D3Node.t) :
  labelled data ns' comp →
  (∀ r, r ∈ raw_nodes data → truthy (RawNode.id r) = true) →
  n ∈ ns' → truthy (D3Node.id n) = true.
Proof.
  intros Hlab Htr Hn.
  assert (D3Node.id n ∈ RawNode.id <$> raw_nodes data) as Hid.
  { rewrite <- nodesIn_ids, <- (lab_ids _ _ _ Hlab).
    by apply list_elem_of_fmap_2. }
  apply list_elem_of_fmap in Hid as (r & -> & Hr). by apply Htr.
Qed.

Lemma flat_map_singletons {A B : Type} (cond : A → bool) (f : A → B)
    (l : list A) :
  (∀ x, x ∈ l → cond x = true) →
  flat_map (λ x, if cond x then [f x] else []) l = f <$> l.
Proof.
  induction l as [|x l IH]; intros Hl; csimpl; [done|].
  rewrite (Hl x) by (by left). simpl. f_equal. apply IH.
  intros y Hy. apply Hl. by right.
Qed.

(** With distinct non-empty ids every consecutive pair of representatives
    gets its connector. *)
Lemma syntheticEdges_chain (data : option Data.t) (ns' : list D3Node.t)
    (comp : nat) :
  labelled data ns' comp → NoDup (RawNode.id <$> raw_nodes data) →
  (∀ r, r ∈ raw_nodes data → truthy (RawNode.id r) = true) →
  let reps := representativeByComp ns' (comps ns') in
  syntheticEdges reps (comps ns')
  = (λ i, synthetic (rep_at reps (comps ns') i) (rep_at reps (comps ns') (i + 1)))
      <$> seq 0 (comp - 1).
Proof.
  intros Hlab Hnd Htr reps. unfold syntheticEdges.
  rewrite (labelled_comps _ _ _ Hlab Hnd) at 1. rewrite length_seq.
  apply (flat_map_singletons
           (λ i, truthy (rep_at reps (comps ns') i)
                 && truthy (rep_at reps (comps ns') (i + 1)))).
  intros i [_ Hi]%elem_of_seq. apply andb_true_intro. split.
  - destruct (rep_at_labelled data ns' comp (i + 1) Hlab Hnd)
      as (rep & _ & Hin & _ & Hat); [lia|].
    replace (i + 1 - 1) with i in Hat by lia. subst reps. rewrite Hat.
    by eapply labelled_truthy.
  - destruct (rep_at_labelled data ns' comp (i + 2) Hlab Hnd)
      as (rep & _ & Hin & _ & Hat); [lia|].
    replace (i + 2 - 1) with (i + 1) in Hat by lia. subst reps. rewrite Hat.
    by eapply labelled_truthy.
Qed.

(** X2. For a payload whose node ids are pairwise distinct non-empty
    strings, the distinct component ids are 1, ..., k, and the output edges
    are the retained edges followed by exactly k - 1 synthetic edges; the
    i-th of them has weight 0.1 and joins the first node in list order with
    component i + 1 to the first node with component i + 2. *)
Theorem connectors_chain_components (data : option Data.t) :
  NoDup (RawNode.id <$> raw_nodes data) →
  Forall (λ r, truthy (RawNode.id r) = true) (raw_nodes data) →
  ∃ out k syn,
    KnowledgeGraph data = Return out
    ∧ comps (Output.nodes out) = seq 1 k
    ∧ Output.edges out = retained data ++ syn
    ∧ length syn = k - 1
    ∧ ∀ i e, syn !! i = Some e →
        ∃ ra rb, find_rep (Output.nodes out) (i + 1) = Some ra
                 ∧ find_rep (Output.nodes out) (i + 2) = Some rb
                 ∧ e = D3Edge.mk (D3Node.id ra) (D3Node.id rb)
                                 (Some 0.1%float) None.
Proof.
  intros Hnd Htr. rewrite Forall_forall in Htr.
  destruct (KnowledgeGraph_spec data) as (ns' & comp & Hlab & ->).
  eexists _, comp, _. split; [done|]. cbn [Output.nodes Output.edges].
  split; [by eapply labelled_comps|].
  split; [by rewrite edgesIn_retained|].
  rewrite (syntheticEdges_chain data ns' comp Hlab Hnd Htr).
  split; [by rewrite length_fmap, length_seq|].
  intros i e. rewrite list_lookup_fmap.
  destruct (seq 0 (comp - 1) !! i) as [j|] eqn:Hj; [|done].
  apply lookup_seq in Hj as [-> Hi]. simpl. intros [= <-].
  destruct (rep_at_labelled data ns' comp (i + 1) Hlab Hnd)
    as (ra & Hra & _ & _ & Hata); [lia|].
  destruct (rep_at_labelled data ns' comp (i + 2) Hlab Hnd)
    as (rb & Hrb & _ & _ & Hatb); [lia|].
  replace (i + 1 - 1) with i in Hata by lia.
  replace (i + 2 - 1) with (i + 1) in Hatb by lia.
  exists ra, rb. split; [done|]. split; [done|]. by rewrite Hata, Hatb.
Qed.

Lemma connectors_chain_components_witness :
  ∃ out k syn,
    KnowledgeGraph sample_two_pairs = Return out
    ∧ comps (Output.nodes out) = seq 1 k
    ∧ Output.edges out = retained sample_two_pairs ++ syn
    ∧ length syn = k - 1
    ∧ ∀ i e, syn !! i = Some e →
        ∃ ra rb, find_rep (Output.nodes out) (i + 1) = Some ra
                 ∧ find_rep (Output.nodes out) (i + 2) = Some rb
                 ∧ e = D3Edge.mk (D3Node.id ra) (D3Node.id rb)
                                 (Some 0.1%float) None.
Proof.
  apply (connectors_chain_components sample_two_pairs).
  - apply (bool_decide_unpack _). vm_compute. exact I.
  - apply (bool_decide_unpack _). vm_compute. exact I.
Defined.

#[global] Instance connected_equivalence (es : list D3Edge.t) :
  Equivalence (connected es).
Proof. unfold connected. apply _. Qed.

(** X1. For a payload whose node ids are pairwise distinct non-empty
    strings, any two output nodes are joined by an undirected path of
    output edges. *)
Theorem output_connected (data : option Data.t) :
  NoDup (RawNode.id <$> raw_nodes data) →
  Forall (λ r, truthy (RawNode.id r) = true) (raw_nodes data) →
  ∃ out, KnowledgeGraph data = Return out
    ∧ ∀ n1 n2, n1 ∈ Output.nodes out → n2 ∈ Output.nodes out →
        connected (Output.edges out) (D3Node.id n1) (D3Node.id n2).
Proof.
  intros Hnd Htr. rewrite Forall_forall in Htr.
  destruct (KnowledgeGraph_spec data) as (ns' & comp & Hlab & ->).
  eexists. split; [done|]. cbn [Output.nodes Output.edges].
  set (reps := representativeByComp ns' (comps ns')).
  set (es := edgesIn data (nodesIn data) ++ syntheticEdges reps (comps ns')).
  set (R := λ c, rep_at reps (comps ns') (c - 1)).
  assert (∀ c, 1 ≤ c → c < comp → connected es (R c) (R (S c))) as Hstep.
  { intros c H1 H2. apply rtsc_lr.
    exists (synthetic (R c) (R (S c))). split; [|done].
    apply elem_of_app; right. subst reps.
    rewrite (syntheticEdges_chain data ns' comp Hlab Hnd Htr).
    apply list_elem_of_fmap. exists (c - 1). split.
    - unfold R. by replace (c - 1 + 1) with (S c - 1) by lia.
    - apply elem_of_seq. lia. }
  assert (∀ c, 1 ≤ c ≤ comp → connected es (R 1) (R c)) as Hchain.
  { intros c [H1 H2]. induction c as [|c IH]; [lia|].
    destruct (decide (c = 0)) as [->|Hc]; [done|].
    etrans; [apply IH; lia|]. apply Hstep; lia. }
  assert (∀ n, n ∈ ns' → connected es (D3Node.id n) (R 1)) as Hroot.
  { intros n Hn.
    destruct (defined_nodes data ns' comp n Hlab Hnd Hn) as (c & Hc & Hrange).
    destruct (rep_at_labelled data ns' comp c Hlab Hnd Hrange)
      as (rep & _ & Hin & Hrc & Hat).
    trans (R c); [|symmetry; by apply Hchain]. unfold R, reps. rewrite Hat.
    apply (connected_mono (edgesIn data (nodesIn data))).
    - intros e He. apply elem_of_app. by left.
    - apply (partition_nodes data ns' comp n rep Hlab Hnd Hn Hin).
      by rewrite Hc, Hrc. }
  intros n1 n2 H1 H2. etrans; [by apply Hroot|]. symmetry. by apply Hroot.
Qed.

Lemma output_connected_witness :
  ∃ out, KnowledgeGraph sample_two_pairs = Return out
    ∧ ∀ n1 n2, n1 ∈ Output.nodes out → n2 ∈ Output.nodes out →
        connected (Output.edges out) (D3Node.id n1) (D3Node.id n2).
Proof.
  apply (output_connected sample_two_pairs).
  - apply (bool_decide_unpack _). vm_compute. exact I.
  - apply (bool_decide_unpack _). vm_compute. exact I.
Defined.

(** X3. The labelling loop writes [component] and nothing else: on every
    payload the output nodes, their [component] put aside, are the
    normalized nodes, in order. *)
Theorem labelling_writes_only_component (data : option Data.t) :
  ∃ out, KnowledgeGraph data = Return out
    ∧ without_component <$> Output.nodes out = nodesIn data.
Proof.
  destruct (KnowledgeGraph_writes_first data) as (ns' & comp & _ & Hw & ->).
  eexists. split; [done|]. cbn [Output.nodes]. by apply written_nodes.
Qed.

(** X4. On every payload, duplicated ids included: an output node whose id
    already occurs earlier in the node list is left without [component];
    every other node gets a [component] between 1 and the final value of
    the counter. *)
Theorem duplicate_ids_unlabelled (data : option Data.t) :
  ∃ out k, KnowledgeGraph data = Return out
    ∧ ∀ i n, Output.nodes out !! i = Some n →
        if decide (D3Node.id n ∈ D3Node.id <$> take i (Output.nodes out))
        then D3Node.component n = None
        else ∃ c, D3Node.component n = Some c ∧ 1 ≤ c ≤ k.
Proof.
  destruct (KnowledgeGraph_writes_first data)
    as (ns' & comp & Hlab & Hw & ->).
  eexists _, comp. split; [done|]. cbn [Output.nodes]. intros i n Hi.
  by eapply first_occurrences_labelled.
Qed.

Lemma climbs_head (x k : nat) (l : list nat) : climbs 0 (x :: l) k → x = 1.
Proof. inversion 1; subst; [lia|done]. Qed.

(** X5. The first node of a non-empty node list always gets component 1. *)
Theorem first_node_component_one (data : option Data.t) :
  ∃ out, KnowledgeGraph data = Return out
    ∧ head (D3Node.component <$> Output.nodes out)
      = (λ _, Some 1) <$> head (raw_nodes data).
Proof.
  destruct (KnowledgeGraph_spec data) as (ns' & comp & Hlab & ->).
  eexists. split; [done|]. cbn [Output.nodes].
  pose proof (lab_ids _ _ _ Hlab) as Hids.
  pose proof (lab_climbs _ _ _ Hlab) as Hcl.
  rewrite <- Hids in Hcl. rewrite nodesIn_ids in Hids.
  destruct ns' as [|n ns'], (raw_nodes data) as [|r rs]; try done.
  csimpl in *. apply climbs_head in Hcl. rewrite decide_True in Hcl by done.
  f_equal. destruct (D3Node.component n); simpl in Hcl; [by subst|done].
Qed.

(** X6. With an empty node list (also when [data], [data.graph] or
    [data.graph.nodes] is missing) the output is empty, whatever the edge
    list holds. *)
Theorem empty_nodes_empty_output (data : option Data.t) :
  raw_nodes data = [] →
  KnowledgeGraph data = Return {| Output.nodes := []; Output.edges := [] |}.
Proof.
  intros Hempty.
  destruct (KnowledgeGraph_spec data) as (ns' & comp & Hlab & ->).
  pose proof (lab_ids _ _ _ Hlab) as Hids. rewrite nodesIn_ids, Hempty in Hids.
  apply fmap_nil_inv in Hids as ->.
  rewrite edgesIn_retained. unfold retained. rewrite Hempty.
  assert (∀ es : list D3Edge.t,
            filter (λ e, D3Edge.source e ∈ RawNode.id <$> []
                         ∧ D3Edge.target e ∈ RawNode.id <$> []) es = []) as ->.
  { induction es as [|e es IH]; [done|].
    rewrite filter_cons, decide_False; [done|].
    intros [H _]. by apply elem_of_nil in H. }
  done.
Qed.

Lemma empty_nodes_empty_output_witness :
  KnowledgeGraph (payload [] [edge "A" "B" 1%float])
  = Return {| Output.nodes := []; Output.edges := [] |}.
Proof. apply (empty_nodes_empty_output (payload [] [edge "A" "B" 1%float])). done. Defined.

Lemma climbs_fresh (c c' : nat) (l : list nat) :
  climbs c l c' → NoDup l → (∀ x, x ∈ l → c < x) → l = seq (S c) (length l).
Proof.
  induction 1 as [c|c x l c' Hx _ _|c l c' _ IH]; intros Hnd Hgt.
  - done.
  - specialize (Hgt x (list_elem_of_here _ _)). lia.
  - apply NoDup_cons in Hnd as [Hnotin Hnd]. cbn [length seq]. f_equal.
    apply IH; [done|]. intros x Hx.
    assert (c < x) by (apply Hgt; by right).
    assert (x ≠ S c) by (by intros ->). lia.
Qed.

(** X7. For a payload with pairwise distinct node ids of which no edge is
    retained, every node is a component of its own, numbered by its
    position: the i-th node of the list gets component i. *)
Theorem no_edges_components_in_order (data : option Data.t) :
  NoDup (RawNode.id <$> raw_nodes data) →
  retained data = [] →
  ∃ out, KnowledgeGraph data = Return out
    ∧ D3Node.component <$> Output.nodes out
      = Some <$> seq 1 (length (raw_nodes data)).
Proof.
  intros Hnd Hret. destruct (KnowledgeGraph_spec data) as (ns' & comp & Hlab & ->).
  eexists. split; [done|]. cbn [Output.nodes].
  pose proof (labelled_NoDup _ _ _ Hlab Hnd) as Hnd'.
  assert (comp_or_0 <$> ns' = seq 1 (length (comp_or_0 <$> ns'))) as Hseq.
  { apply (climbs_fresh 0 comp).
    - rewrite (comp_or_0_comp_of ns' Hnd'), (lab_ids _ _ _ Hlab).
      apply (lab_climbs _ _ _ Hlab).
    - apply NoDup_fmap_2_strong; [|by eapply NoDup_fmap_1].
      intros n1 n2 H1 H2 Heq.
      destruct (defined_nodes data ns' comp n1 Hlab Hnd H1) as (c1 & Hc1 & _).
      destruct (defined_nodes data ns' comp n2 Hlab Hnd H2) as (c2 & Hc2 & _).
      unfold comp_or_0 in Heq. rewrite Hc1, Hc2 in Heq. subst c2.
      eapply NoDup_id_inj; [done..|]. apply connected_nil. rewrite <- Hret.
      rewrite <- edgesIn_retained.
      apply (partition_nodes data ns' comp n1 n2 Hlab Hnd H1 H2). congruence.
    - intros x (n & -> & Hn)%list_elem_of_fmap.
      destruct (defined_nodes data ns' comp n Hlab Hnd Hn) as (c & Hc & ?).
      unfold comp_or_0. rewrite Hc. lia. }
  rewrite length_fmap in Hseq.
  assert (length ns' = length (raw_nodes data)) as <-.
  { rewrite <- (length_fmap D3Node.id ns'), (lab_ids _ _ _ Hlab), nodesIn_ids.
    by rewrite length_fmap. }
  rewrite <- Hseq, <- list_fmap_compose. apply list_fmap_ext. intros i n Hi.
  simpl. apply list_elem_of_lookup_2 in Hi.
  destruct (defined_nodes data ns' comp n Hlab Hnd Hi) as (c & Hc & _).
  unfold comp_or_0. by rewrite Hc.
Qed.

Lemma no_edges_components_in_order_witness :
  ∃ out, KnowledgeGraph (payload [raw "A"; raw "B"] [edge "A" "Z" 5%float])
         = Return out
    ∧ D3Node.component <$> Output.nodes out = Some <$> seq 1 2.
Proof.
  apply (no_edges_components_in_order
           (payload [raw "A"; raw "B"] [edge "A" "Z" 5%float])).
  - apply (bool_decide_unpack _). vm_compute. exact I.
  - vm_compute. reflexivity.
Defined.

(** X8. The adjacency map of lines 56-61 is always built: its keys are the
    node ids, and [b] is on the list of [a] exactly when a retained edge
    joins [a] and [b] in either direction. *)
Theorem adjacency_of_retained_edges (data : option Data.t) :
  ∃ adj, build_adj (nodesIn data) (edgesIn data (nodesIn data)) = Return adj
    ∧ (∀ k, is_Some (adj !! k) ↔ k ∈ RawNode.id <$> raw_nodes data)
    ∧ ∀ a b, (∃ l, adj !! a = Some l ∧ b ∈ l)
             ↔ ∃ e, e ∈ retained data
                    ∧ (D3Edge.source e = a ∧ D3Edge.target e = b
                       ∨ D3Edge.source e = b ∧ D3Edge.target e = a).
Proof.
  destruct (build_adj_spec data) as (adj & Hadj & Hdom & Hnbr).
  exists adj. split; [done|]. split.
  - intros k. by rewrite <- elem_of_dom, Hdom, elem_of_nodeIdSet, nodesIn_ids.
  - intros a b. rewrite <- edgesIn_retained.
    change (nbr adj a b ↔ ∃ e, e ∈ edgesIn data (nodesIn data)
              ∧ (D3Edge.source e = a ∧ D3Edge.target e = b
                 ∨ D3Edge.source e = b ∧ D3Edge.target e = a)).
    rewrite Hnbr. unfold sc, edge_rel. split.
    + intros [(e & He & ?)|(e & He & ?)]; exists e; tauto.
    + intros (e & He & [?|?]); [left|right]; exists e; tauto.
Qed.

Lemma flat_map_length_le {A B : Type} (f : A → list B) (l : list A) :
  (∀ x, length (f x) ≤ 1) → length (flat_map f l) ≤ length l.
Proof.
  intros Hf. induction l as [|x l IH]; simpl; [done|].
  rewrite length_app. specialize (Hf x). lia.
Qed.

(** X9. On every payload the synthetic edges follow the retained ones, are
    fewer than the distinct component ids, and each has weight 0.1, no
    [co_occurrence_count] and two non-empty string endpoints. *)
Theorem synthetic_edges_bounded (data : option Data.t) :
  ∃ out syn, KnowledgeGraph data = Return out
    ∧ Output.edges out = retained data ++ syn
    ∧ length syn ≤ length (comps (Output.nodes out)) - 1
    ∧ Forall (λ e, D3Edge.weight e = Some 0.1%float
                   ∧ D3Edge.co_occurrence_count e = None
                   ∧ truthy (D3Edge.source e) = true
                   ∧ truthy (D3Edge.target e) = true) syn.
Proof.
  destruct (KnowledgeGraph_spec data) as (ns' & comp & _ & ->).
  eexists _, _. split; [done|]. cbn [Output.nodes Output.edges].
  split; [by rewrite edgesIn_retained|]. split.
  - unfold syntheticEdges.
    etrans; [apply flat_map_length_le|by rewrite length_seq].
    intros i. destruct (_ && _); simpl; lia.
  - apply Forall_forall. intros e (i & _ & Ha & Hb & ->)%elem_of_syntheticEdges.
    done.
Qed.

Lemma elem_of_comps (ns : list D3Node.t) (c : nat) :
  c ∈ comps ns ↔ ∃ n, n ∈ ns ∧ comp_or_0 n = c.
Proof.
  unfold comps, sort_ascending.
  rewrite merge_sort_Permutation, elem_of_set_order, list_elem_of_fmap.
  split; intros (n & ? & ?); exists n; done.
Qed.

(** X10. The list [comps] of line 83 holds each value [n.component || 0]
    of the node list exactly once, in ascending order. *)
Theorem comps_sorted_distinct (ns : list D3Node.t) :
  Sorted (≤) (comps ns) ∧ NoDup (comps ns)
  ∧ ∀ c, c ∈ comps ns ↔ ∃ n, n ∈ ns ∧ comp_or_0 n = c.
Proof.
  unfold comps, sort_ascending. split; [|split].
  - apply Sorted_merge_sort. apply _.
  - rewrite merge_sort_Permutation. apply set_order_NoDup.
  - apply elem_of_comps.
Qed.

(** X11. [representativeByComp] (lines 84-88) has an entry exactly for the
    values of [comps], and the entry of [c] is the id of the first node in
    list order with [n.component || 0] equal to [c]. *)
Theorem representative_is_first (ns : list D3Node.t) :
  let reps := representativeByComp ns (comps ns) in
  (∀ c, is_Some (reps !! c) ↔ c ∈ comps ns)
  ∧ ∀ c v, reps !! c = Some v →
      ∃ i rep, ns !! i = Some rep ∧ comp_or_0 rep = c ∧ v = D3Node.id rep
               ∧ ∀ j n, ns !! j = Some n → comp_or_0 n = c → i ≤ j.
Proof.
  intros reps. subst reps. split.
  - intros c. rewrite representativeByComp_lookup. case_decide as Hc.
    + split; [done|]. intros _.
      apply elem_of_comps in Hc as (n & Hn & <-).
      destruct (find_rep_is_Some ns n Hn) as [rep ->]. by eexists.
    + split; [by intros [? ?]|done].
  - intros c v. rewrite representativeByComp_lookup. case_decide; [|done].
    unfold find_rep. destruct (list_find _ ns) as [[i rep]|] eqn:Hf; [|done].
    simpl. intros [= <-]. apply list_find_Some in Hf as (Hi & Hc & Hfirst).
    exists i, rep. split; [done|]. split; [done|]. split; [done|].
    intros j n Hj Hn. destruct (decide (i ≤ j)); [done|].
    destruct (Hfirst j n Hj); [lia|done].
Qed.

(** ** Cluster centres of the rendering effect *)

Section cluster_centers_facts.

Context {coord : Type} (circle_x circle_y : nat → nat → coord).

Lemma foldl_insert_notin (kvs : list (nat * (coord * coord)))
    (m : gmap nat (coord * coord)) (k : nat) :
  k ∉ kvs.*1 → foldl (λ acc '(c, p), <[c := p]> acc) m kvs !! k = m !! k.
Proof.
  revert m. induction kvs as [|[c p] kvs IH]; intros m Hk; csimpl in *; [done|].
  rewrite IH by (intros ?; apply Hk; by right).
  apply lookup_insert_ne. intros ->. apply Hk. by left.
Qed.

Lemma foldl_insert_lookup (kvs : list (nat * (coord * coord)))
    (m : gmap nat (coord * coord)) (k : nat) (v : coord * coord) :
  NoDup kvs.*1 → (k, v) ∈ kvs →
  foldl (λ acc '(c, p), <[c := p]> acc) m kvs !! k = Some v.
Proof.
  revert m. induction kvs as [|[c p] kvs IH]; intros m Hnd Hin; csimpl in *.
  - by apply elem_of_nil in Hin.
  - apply NoDup_cons in Hnd as [Hc Hnd].
    apply elem_of_cons in Hin as [[= -> ->]|Hin]; [|by apply IH].
    rewrite foldl_insert_notin by done. apply lookup_insert_eq.
Qed.

Lemma centers_lookup (ns : list D3Node.t) (i c : nat) :
  cluster_comps ns !! i = Some c →
  centers circle_x circle_y ns !! c
  = Some (circle_x i (length (cluster_comps ns)),
          circle_y i (length (cluster_comps ns))).
Proof.
  intros Hi. unfold centers.
  assert (Nat.max (length (cluster_comps ns)) 1 = length (cluster_comps ns))
    as -> by (apply lookup_lt_Some in Hi; lia).
  apply foldl_insert_lookup.
  - assert (∀ (f : nat → nat → coord * coord) (l : list nat),
              (imap (λ i c, (c, f i c)) l).*1 = l) as ->.
    { intros f l. revert f. induction l as [|x l IH]; intros f; [done|].
      rewrite imap_cons. csimpl. f_equal. apply (IH (λ i c, f (S i) c)). }
    apply set_order_NoDup.
  - apply list_elem_of_lookup. exists i. by rewrite list_lookup_imap, Hi.
Qed.

(** X12. Every node of the list given to the simulation is pulled towards
    the centre of its own cluster: its [component || 0] stands at some
    position [i] of the list of cluster ids, the two cluster forces aim at
    point [i] of the circle, and the fallback to the middle of the canvas is
    never taken. *)
Theorem cluster_target_defined (ns : list D3Node.t)
    (half_width half_height : coord) :
  Forall (λ d, ∃ i, cluster_comps ns !! i = Some (comp_or_0 d)
                    ∧ clusterX circle_x circle_y ns half_width d
                      = circle_x i (length (cluster_comps ns))
                    ∧ clusterY circle_x circle_y ns half_height d
                      = circle_y i (length (cluster_comps ns)))
         ns.
Proof.
  apply Forall_forall. intros d Hd.
  assert (comp_or_0 d ∈ cluster_comps ns) as Hin.
  { apply elem_of_set_order. by apply list_elem_of_fmap_2. }
  apply list_elem_of_lookup in Hin as [i Hi]. exists i. split; [done|].
  unfold clusterX, clusterY. by rewrite (centers_lookup ns i _ Hi).
Qed.

(** X13. For a payload with pairwise distinct node ids and k components,
    the output node with component c is pulled towards point c - 1 of the k
    points of the circle. *)
Theorem cluster_target_of_output (data : option Data.t)
    (half_width half_height : coord) :
  NoDup (RawNode.id <$> raw_nodes data) →
  ∃ out k, KnowledgeGraph data = Return out
    ∧ Forall (λ d, ∃ c, D3Node.component d = Some c ∧ 1 ≤ c ≤ k
                        ∧ clusterX circle_x circle_y (Output.nodes out)
                                   half_width d
                          = circle_x (c - 1) k
                        ∧ clusterY circle_x circle_y (Output.nodes out)
                                   half_height d
                          = circle_y (c - 1) k)
             (Output.nodes out).
Proof.
  intros Hnd. destruct (KnowledgeGraph_spec data) as (ns' & comp & Hlab & ->).
  eexists _, comp. split; [done|]. cbn [Output.nodes].
  apply Forall_forall. intros d Hd.
  destruct (defined_nodes data ns' comp d Hlab Hnd Hd) as (c & Hc & Hrange).
  exists c. split; [done|]. split; [done|].
  assert (cluster_comps ns' = seq 1 comp) as Hcs
    by (by eapply labelled_set_order).
  assert (cluster_comps ns' !! (c - 1) = Some (comp_or_0 d)) as Hi.
  { rewrite Hcs, lookup_seq_lt by lia. unfold comp_or_0. rewrite Hc.
    f_equal. lia. }
  unfold clusterX, clusterY. rewrite (centers_lookup ns' (c - 1) _ Hi).
  by rewrite Hcs, length_seq.
Qed.

End cluster_centers_facts.

Lemma cluster_target_of_output_witness :
  ∃ out k, KnowledgeGraph sample_two_pairs = Return out
    ∧ Forall (λ d, ∃ c, D3Node.component d = Some c ∧ 1 ≤ c ≤ k
                        ∧ clusterX (λ i m, (i, m)) (λ i m, (m, i))
                                   (Output.nodes out) (0, 0) d
                          = (c - 1, k)
                        ∧ clusterY (λ i m, (i, m)) (λ i m, (m, i))
                                   (Output.nodes out) (0, 0) d
                          = (k, c - 1))
             (Output.nodes out).
Proof.
  apply (cluster_target_of_output (λ i m, (i, m)) (λ i m, (m, i))
           sample_two_pairs (0, 0) (0, 0)).
  apply (bool_decide_unpack _). vm_compute. exact I.
Defined.

(** ** Selecting an entity *)

(** X14. A click toggles the highlight of the clicked node and leaves no
    node with another id highlighted: afterwards the clicked node is red
    exactly when it was blue before, and a node with a different id is
    blue. *)
Theorem click_toggles_highlight {details : Type} (d : D3Node.t)
    (s : HomeState details) :
  (fill (selectedEntity (on_click d s)) d = "#ef4444"%string
   ↔ fill (selectedEntity s) d = "#3b82f6"%string)
  ∧ ∀ d', D3Node.id d' ≠ D3Node.id d →
          fill (selectedEntity (on_click d s)) d' = "#3b82f6"%string.
Proof.
  unfold on_click, fill, handleEntityDeselect, handleEntitySelect. split.
  - destruct (decide (selectedEntity s = sel_id (D3Node.id d))) as [Hs|Hs];
      cbn [selectedEntity].
    + rewrite (decide_False (P := sel_null = _)) by done. by split.
    + rewrite (decide_True (P := sel_id _ = _)) by done. by split.
  - intros d' Hne.
    destruct (decide (selectedEntity s = sel_id (D3Node.id d)));
      cbn [selectedEntity].
    + by rewrite decide_False.
    + rewrite decide_False; [done|]. by intros [= ?].
Qed.
